(** * Build helpers of rancher-desktop: process supervision, task
      coordination and resource download

    Shallow embedding of [scripts/lib/build-utils.mjs] and
    [scripts/download/lima.mjs].

    JavaScript promises are modelled as cells that settle at most once,
    child processes as the sequence of events Node emits for them, async
    functions as resumptions that stop at every [await] of an outside
    operation, and the two coordination disciplines of [wait] as state
    machines driven by the order in which the outside world answers. *)

From Stdlib Require Import ZArith NArith List Bool Lia.
From stdpp Require Import base option list strings pretty gmap.

Local Open Scope string_scope.
Local Open Scope list_scope.

(** ** JavaScript values, errors and promises *)

(** A text received from outside (a manifest body) is a sequence of UTF-16
    code units, so that the regular expression class [\s] can be modelled
    on every character it matches. *)
Definition jsstring := list N.

Inductive error :=
| Error (message : string)        (* new Error(message) *)
| SystemError (syscall : string) (code : string)
                                  (* an error object made by the platform *)
| TypeError (message : string).

Inductive jsval :=
| VUndefined
| VNull
| VNumber (n : Z)
| VText (s : jsstring)
| VPromise (id : nat)             (* the promise of the task started as [id] *)
| VArray (elems : list jsval).

Inductive settle :=
| Fulfilled (v : jsval)
| Rejected (e : error).

Inductive pstate :=
| Pending
| Settled (s : settle).

(** The two capabilities handed to a promise executor: the first call
    settles the promise, later calls do nothing. *)
Definition resolve (v : jsval) (p : pstate) : pstate :=
  match p with
  | Pending => Settled (Fulfilled v)
  | Settled _ => p
  end.

Definition reject (e : error) (p : pstate) : pstate :=
  match p with
  | Pending => Settled (Rejected e)
  | Settled _ => p
  end.

Definition is_fulfilled (p : pstate) : bool :=
  match p with Settled (Fulfilled _) => true | _ => false end.

Definition is_rejected (p : pstate) : bool :=
  match p with Settled (Rejected _) => true | _ => false end.

(** ** Child processes *)

(** What a listener receives: a nullable exit code and a nullable signal
    name. *)
Inductive child_event :=
| OnExit (code : option Z) (signal : option string)
| OnError (err : error)
| OnClose (code : option Z) (signal : option string).

(** The life of a child process as Node reports it: it ran and ended with
    an exit code, it ran and was terminated by a signal, or it could not be
    started.  ['close'] always follows ['exit'], or ['error'] when the
    spawn failed. *)
Inductive child_run :=
| Exited (code : Z)
| Killed (signal : string)
| SpawnFailed (errno : Z) (err : error).

Definition events_of (r : child_run) : list child_event :=
  match r with
  | Exited code => [OnExit (Some code) None; OnClose (Some code) None]
  | Killed signal => [OnExit None (Some signal); OnClose None (Some signal)]
  | SpawnFailed errno err => [OnError err; OnClose (Some errno) None]
  end.

(** A promise built around an event emitter.  [uncaught] records an
    ['error'] event that found no listener: the emitter throws it, and no
    later event is delivered. *)
Record emitter := {
  promise : pstate;
  uncaught : option error;
}.

Definition listeners := child_event -> option (pstate -> pstate).

Definition emit (ls : listeners) (st : emitter) (ev : child_event) : emitter :=
  match uncaught st with
  | Some _ => st
  | None =>
      match ls ev, ev with
      | Some handler, _ => {| promise := handler (promise st); uncaught := None |}
      | None, OnError err => {| promise := promise st; uncaught := Some err |}
      | None, _ => st
      end
  end.

Definition deliver_events (ls : listeners) (evs : list child_event) : emitter :=
  fold_left (emit ls) evs {| promise := Pending; uncaught := None |}.

(** JavaScript truthiness of a nullable string and of a nullable number. *)
Definition truthy_string (s : option string) : bool :=
  match s with
  | Some s => negb (String.eqb s EmptyString)
  | None => false
  end.

Definition show_code (code : option Z) : string :=
  match code with
  | Some n => pretty n
  | None => "null"
  end.

Definition show_signal (signal : option string) : string :=
  match signal with
  | Some s => s
  | None => "null"
  end.

Definition code_value (code : option Z) : jsval :=
  match code with
  | Some n => VNumber n
  | None => VNull
  end.

(** *** build-utils.mjs: the listeners installed by [spawn] *)

Definition spawn_on_exit (code : option Z) (signal : option string)
    (p : pstate) : pstate :=
  if truthy_string signal && negb (bool_decide (signal = Some "SIGTERM")) then
    reject (Error ("Process exited with signal " +:+ show_signal signal)) p
  else if negb (bool_decide (code = Some 0%Z)) && negb (bool_decide (code = None)) then
    reject (Error ("Process exited with code " +:+ show_code code)) p
  else p.

Definition spawn_listeners : listeners := fun ev =>
  match ev with
  | OnExit code signal => Some (spawn_on_exit code signal)
  | OnError err => Some (reject err)
  | OnClose code _ => Some (resolve (code_value code))
  end.

(** The promise returned by [spawn], once the child is gone. *)
Definition spawn_promise (r : child_run) : pstate :=
  promise (deliver_events spawn_listeners (events_of r)).

(** *** lima.mjs: the listener installed by [getLima] on the tar process *)

Definition code_or_signal (code : option Z) (signal : option string) : string :=
  match code with
  | Some n => if bool_decide (n = 0%Z) then show_signal signal else pretty n
  | None => show_signal signal
  end.

Definition extract_on_exit (code : option Z) (signal : option string)
    (p : pstate) : pstate :=
  if bool_decide (code = Some 0%Z) then resolve VUndefined p
  else reject (Error ("Lima extract failed with " +:+ code_or_signal code signal)) p.

Definition extract_listeners : listeners := fun ev =>
  match ev with
  | OnExit code signal => Some (extract_on_exit code signal)
  | OnError _ => None
  | OnClose _ _ => None
  end.

Definition extract_outcome (r : child_run) : emitter :=
  deliver_events extract_listeners (events_of r).

Definition extract_promise (r : child_run) : pstate :=
  promise (extract_outcome r).

(** ** The invoking process *)

Record process := {
  argv : list string;               (* process.argv *)
  platform : string;                (* os.platform() *)
  arch : string;                    (* process.arch *)
  env : gmap string string;         (* process.env *)
  cwd : string;                     (* process.cwd() *)
  srcDir : string;                  (* the root directory of the repository *)
}.

(** [path.join] on segments that need no normalisation: the segments are
    glued with the separator of the host. *)
Definition path_sep (proc : process) : string :=
  if String.eqb (platform proc) "win32" then "\" else "/".

Definition path_join (proc : process) (segments : list string) : string :=
  String.concat (path_sep proc) segments.

(** [get serial()]: [process.argv.some(x => x === '--serial')]. *)
Definition serial (proc : process) : bool :=
  existsb (fun x => String.eqb x "--serial") (argv proc).

(** [get isDevelopment()]: [/^(?:dev|test)/.test(process.env.NODE_ENV)];
    an unset variable is tested as the text "undefined". *)
Definition isDevelopment (proc : process) : bool :=
  let node_env := default "undefined" (env proc !! "NODE_ENV") in
  String.prefix "dev" node_env || String.prefix "test" node_env.

(** ** Outside operations and async functions *)

Record invocation := {
  command : string;
  arguments : list string;
  inv_cwd : string;
  inv_env : option (gmap string string);   (* None: inherit process.env *)
  inv_stdio : string;
}.

Record spawn_options := {
  opt_cwd : option string;
  opt_env : option (gmap string string);
}.

(** Promise-returning operations of the platform and of [download.mjs]. *)
Inductive operation :=
| CopyFile (src dest : string)
| Mkdir (dir : string) (recursive : bool)
| GetResource (url : string)
| Download (url dest : string) (expectedChecksum : jsval)
           (checksumAlgorithm : string) (access : Z).

(** What a suspended task is waiting for. *)
Inductive waiting :=
| WPromise (op : operation)
| WChild (inv : invocation)
| WBundle (mode : string).

(** What the outside world answers. *)
Inductive response :=
| Answer (s : settle)                   (* the awaited promise settles *)
| ChildGone (r : child_run)             (* the child's events are delivered *)
| Bundled (err : option error) (hasErrors : bool) (details : string).
                                        (* webpack calls back with (err, stats) *)

(** An async function that has run up to its next suspension point.
    [Stalled] is a function whose awaited promise nothing will ever
    settle; it carries the exception that escaped, if one did. *)
Inductive task :=
| Ret (s : settle)
| Stalled (escaped : option error)
| Await (op : operation) (k : settle -> task)
| Child (inv : invocation) (k : child_run -> task)
| Bundle (mode : string) (k : option error -> bool -> string -> task).

(** [await p] inside an async function: a rejection of [p] is thrown, and
    nothing catches it in the functions modelled here. *)
Definition await (op : operation) (k : jsval -> task) : task :=
  Await op (fun s =>
    match s with
    | Fulfilled v => k v
    | Rejected e => Ret (Rejected e)
    end).

(** [await] on a promise built around a child's event emitter. *)
Definition await_emitter (em : emitter) (k : jsval -> task) : task :=
  match promise em with
  | Settled (Fulfilled v) => k v
  | Settled (Rejected e) => Ret (Rejected e)
  | Pending => Stalled (uncaught em)
  end.

(** *** build-utils.mjs *)

(** [spawn(command, ...args)]: the options default to the repository root
    and inherited streams; a trailing options object overrides them. *)
Definition spawn_invocation (proc : process) (command : string)
    (args : list string) (options : option spawn_options) : invocation :=
  {| command := command;
     arguments := args;
     inv_cwd := default (srcDir proc) (options ≫= opt_cwd);
     inv_env := options ≫= opt_env;
     inv_stdio := "inherit" |}.

(** [await this.spawn(...)]. *)
Definition spawn (proc : process) (command : string) (args : list string)
    (options : option spawn_options) (k : jsval -> task) : task :=
  Child (spawn_invocation proc command args options)
        (fun r => await_emitter (deliver_events spawn_listeners (events_of r)) k).

Definition webpack_mode (proc : process) : string :=
  if isDevelopment proc then "development" else "production".

Definition buildJavaScript (proc : process) : task :=
  Bundle (webpack_mode proc) (fun err hasErrors details =>
    match err with
    | Some e => Ret (Rejected e)
    | None =>
        if hasErrors then Ret (Rejected (Error details))
        else Ret (Fulfilled VUndefined)
    end).

Definition buildWSLHelper (proc : process) : task :=
  let outFile := path_join proc [srcDir proc; "resources"; "linux"; "bin"; "wsl-helper"] in
  spawn proc "go" ["build"; "-ldflags"; "-d -s -w"; "-o"; outFile; "."]
    (Some {| opt_cwd := Some (path_join proc [srcDir proc; "src"; "go"; "wsl-helper"]);
             opt_env := Some (<["GOOS" := "linux"]> (env proc)) |})
    (fun _ => Ret (Fulfilled VUndefined)).

(** The three files of a nerdctl stub build. *)
Record stub_files := {
  outFile : string;
  sourceFile : string;
  destFile : string;
}.

Definition stub_paths (proc : process) (os : string) : stub_files :=
  if String.eqb os "windows" then
    let parentDir := path_join proc [srcDir proc; "resources"; "win32"; "bin"] in
    {| outFile := path_join proc [parentDir; "nerdctl.exe"];
       sourceFile := path_join proc [parentDir; "nerdctl.exe"];
       destFile := path_join proc [parentDir; "docker.exe"] |}
  else
    let parentDir := path_join proc [srcDir proc; "resources"; "linux"; "bin"] in
    {| outFile := path_join proc [parentDir; "nerdctl-stub"];
       sourceFile := path_join proc [parentDir; "nerdctl"];
       destFile := path_join proc [parentDir; "docker"] |}.

Definition stub_build (proc : process) (os : string) : invocation :=
  spawn_invocation proc "go"
    ["build"; "-ldflags"; "-s -w"; "-o"; outFile (stub_paths proc os); "."]
    (Some {| opt_cwd := Some (path_join proc [srcDir proc; "src"; "go"; "nerdctl-stub"]);
             opt_env := Some (<["GOOS" := os]> (env proc)) |}).

Definition stub_copy (proc : process) (os : string) : operation :=
  CopyFile (sourceFile (stub_paths proc os)) (destFile (stub_paths proc os)).

Definition buildNerdctlStub (proc : process) (os : string) : task :=
  if negb (existsb (String.eqb os) ["windows"; "linux"]) then
    Ret (Rejected (Error ("Unexpected os of " +:+ os)))
  else
    spawn proc "go"
      ["build"; "-ldflags"; "-s -w"; "-o"; outFile (stub_paths proc os); "."]
      (Some {| opt_cwd := Some (path_join proc [srcDir proc; "src"; "go"; "nerdctl-stub"]);
               opt_env := Some (<["GOOS" := os]> (env proc)) |})
      (fun _ =>
         await (CopyFile (sourceFile (stub_paths proc os)) (destFile (stub_paths proc os)))
           (fun _ => Ret (Fulfilled VUndefined))).

(** [buildMain]: the list of tasks handed to [wait]. *)
Definition buildMain_tasks (proc : process) : list task :=
  [buildJavaScript proc] ++
  (if String.prefix "win" (platform proc) then
     [buildWSLHelper proc; buildNerdctlStub proc "windows"; buildNerdctlStub proc "linux"]
   else []).

(** *** lima.mjs *)

Definition limaRepo := "https://github.com/rancher-sandbox/lima-and-qemu".
Definition limaTag := "v1.23".

Definition alpineLimaRepo := "https://github.com/lima-vm/alpine-lima".
Definition alpineLimaTag := "v0.2.16".
Definition alpineLimaEdition := "rd".
Definition alpineLimaVersion := "3.15.4".

(** [fs.constants.W_OK]. *)
Definition W_OK : Z := 2%Z.

(** The characters matched by [\s]: white space and line terminators. *)
Definition is_space (c : N) : bool :=
  ((9 <=? c) && (c <=? 13) || (c =? 32) || (c =? 160) || (c =? 5760)
   || (8192 <=? c) && (c <=? 8202) || (c =? 8232) || (c =? 8233)
   || (c =? 8239) || (c =? 8287) || (c =? 12288) || (c =? 65279))%N.

(** [s.split(/\s+/)]: [piece] is the piece being read, [in_sep] tells that
    the previous character belonged to a separator. *)
Fixpoint split_from (piece : jsstring) (in_sep : bool) (s : jsstring) : list jsstring :=
  match s with
  | [] => [piece]
  | c :: rest =>
      if is_space c then
        if in_sep then split_from piece true rest
        else piece :: split_from [] true rest
      else split_from (piece ++ [c]) false rest
  end.

Definition split_spaces (s : jsstring) : list jsstring := split_from [] false s.

(** [text.split(/\s+/)[0]] on whatever the manifest request produced. *)
Definition first_of_split (v : jsval) (k : jsval -> task) : task :=
  match v with
  | VText body =>
      match split_spaces body !! 0%nat with
      | Some field => k (VText field)
      | None => k VUndefined
      end
  | _ => Ret (Rejected (TypeError "split is not a function"))
  end.

Definition lima_url (platform : string) : string :=
  limaRepo +:+ "/releases/download/" +:+ limaTag +:+ "/lima-and-qemu."
    +:+ platform +:+ ".tar.gz".

Definition alpine_url (arch : string) : string :=
  alpineLimaRepo +:+ "/releases/download/" +:+ alpineLimaTag +:+ "/alpine-lima-"
    +:+ alpineLimaEdition +:+ "-" +:+ alpineLimaVersion +:+ "-" +:+ arch +:+ ".iso".

Definition lima_tar (proc : process) (platform : string) : string :=
  path_join proc [path_join proc [cwd proc; "resources"; platform];
                  "lima-" +:+ limaTag +:+ "." +:+ platform +:+ ".tgz"].

Definition lima_dir (proc : process) (platform : string) : string :=
  path_join proc [path_join proc [cwd proc; "resources"; platform]; "lima"].

Definition alpine_dest (proc : process) (platform : string) : string :=
  path_join proc [cwd proc; "resources"; platform;
                  "alpine-lima-" +:+ alpineLimaTag +:+ "-" +:+ alpineLimaEdition
                    +:+ "-" +:+ alpineLimaVersion +:+ ".iso"].

Definition tar_invocation (proc : process) (platform : string) : invocation :=
  {| command := "/usr/bin/tar";
     arguments := ["-xf"; lima_tar proc platform];
     inv_cwd := lima_dir proc platform;
     inv_env := None;
     inv_stdio := "inherit" |}.

(** The part of [getLima] after the download: make the directory, run tar
    and wait for its ['exit']. *)
Definition extract (proc : process) (platform : string) : task :=
  await (Mkdir (lima_dir proc platform) true) (fun _ =>
  Child (tar_invocation proc platform) (fun r =>
  await_emitter (extract_outcome r) (fun _ => Ret (Fulfilled VUndefined)))).

Definition getLima (proc : process) (platform : string) : task :=
  let url := lima_url platform in
  await (GetResource (url +:+ ".sha512sum")) (fun manifest =>
  first_of_split manifest (fun expectedChecksum =>
  await (Download url (lima_tar proc platform) expectedChecksum "sha512" W_OK) (fun _ =>
  extract proc platform))).

Definition getAlpineLima (proc : process) (arch platform : string) : task :=
  let url := alpine_url arch in
  await (GetResource (url +:+ ".sha512sum")) (fun manifest =>
  first_of_split manifest (fun expectedChecksum =>
  await (Download url (alpine_dest proc platform) expectedChecksum "sha512" W_OK) (fun _ =>
  Ret (Fulfilled VUndefined)))).

(** ** Running tasks *)

(** What is recorded about one task, and about a coordination call.  A
    history lists the newest event first. *)
Inductive tevent :=
| Started                         (* the task function is called *)
| Began (w : waiting)             (* it starts an outside operation and suspends *)
| Answered (r : response)         (* the outside world answers it *)
| Ended (s : settle)              (* its promise settles *)
| Stalls (escaped : option error).

Inductive event :=
| Task (i : nat) (te : tevent)
| AwaitAll.                       (* Promise.all subscribes to its inputs *)

Definition arrive (t : task) : tevent :=
  match t with
  | Ret s => Ended s
  | Stalled escaped => Stalls escaped
  | Await op _ => Began (WPromise op)
  | Child inv _ => Began (WChild inv)
  | Bundle mode _ => Began (WBundle mode)
  end.

(** A suspended task takes the answer that fits what it waits for. *)
Definition resume (t : task) (r : response) : option task :=
  match t, r with
  | Await _ k, Answer s => Some (k s)
  | Child _ k, ChildGone run => Some (k run)
  | Bundle _ k, Bundled err hasErrors details => Some (k err hasErrors details)
  | _, _ => None
  end.

(** Calling the task functions one after the other, from position [i]. *)
Fixpoint launch (i : nat) (tasks : list task) (h : list event) : list event :=
  match tasks with
  | [] => h
  | t :: rest => launch (S i) rest (Task i (arrive t) :: Task i Started :: h)
  end.

(** *** Promise.all *)

Record aggregate := {
  remaining : nat;                (* inputs not yet fulfilled *)
  values : list jsval;            (* the fulfilment values collected so far *)
  outcome : pstate;               (* the promise returned by Promise.all *)
}.

(** The reaction of [Promise.all] to the settlement of its input [j]. *)
Definition notify (j : nat) (s : settle) (a : aggregate) : aggregate :=
  match s with
  | Fulfilled v =>
      let vals := <[j := v]> (values a) in
      let left := pred (remaining a) in
      {| remaining := left;
         values := vals;
         outcome := if Nat.eqb left 0 then resolve (VArray vals) (outcome a)
                    else outcome a |}
  | Rejected e =>
      {| remaining := remaining a; values := values a;
         outcome := reject e (outcome a) |}
  end.

(** Subscription: an input that is no promise counts as fulfilled with
    itself, an input that is a settled promise reacts at once, in the order
    of the inputs. *)
Fixpoint subscribe (slots : list task) (j : nat) (inputs : list jsval)
    (a : aggregate) : aggregate :=
  match inputs with
  | [] => a
  | x :: rest =>
      subscribe slots (S j) rest
        match x with
        | VPromise i =>
            match slots !! i with
            | Some (Ret s) => notify j s a
            | _ => a
            end
        | _ => notify j (Fulfilled x) a
        end
  end.

Definition promise_all (slots : list task) (inputs : list jsval) : aggregate :=
  subscribe slots 0 inputs
    {| remaining := length inputs;
       values := replicate (length inputs) VUndefined;
       outcome := if Nat.eqb (length inputs) 0
                  then Settled (Fulfilled (VArray [])) else Pending |}.

(** Task [i] settles later: every input that is its promise reacts. *)
Fixpoint announce (i : nat) (s : settle) (j : nat) (inputs : list jsval)
    (a : aggregate) : aggregate :=
  match inputs with
  | [] => a
  | x :: rest =>
      announce i s (S j) rest
        match x with
        | VPromise i' => if Nat.eqb i' i then notify j s a else a
        | _ => a
        end
  end.

(** Tasks running side by side, and a [Promise.all] over [inputs]. *)
Record pool := {
  slots : list task;
  inputs : list jsval;
  agg : aggregate;
  p_history : list event;
}.

Definition pool_of (tasks : list task) (ins : list jsval) : pool :=
  {| slots := tasks;
     inputs := ins;
     agg := promise_all tasks ins;
     p_history := AwaitAll :: launch 0 tasks [] |}.

Definition pool_deliver (p : pool) (i : nat) (r : response) : pool :=
  match slots p !! i with
  | Some t =>
      match resume t r with
      | Some t' =>
          {| slots := <[i := t']> (slots p);
             inputs := inputs p;
             agg := match t' with
                    | Ret s => announce i s 0 (inputs p) (agg p)
                    | _ => agg p
                    end;
             p_history := Task i (arrive t') :: Task i (Answered r) :: p_history p |}
      | None => p
      end
  | None => p
  end.

(** *** wait: the two disciplines *)

(** Parallel: [await Promise.all(tasks.map(t => t()))]. *)
Definition wait_parallel (tasks : list task) : pool :=
  pool_of tasks (map VPromise (seq 0 (length tasks))).

(** Serial: [for (const task of tasks) { await task(); }].  [s_index] is
    the position of the task called last, [s_current] what it is doing,
    [s_todo] the tasks the loop has not reached. *)
Record serial_state := {
  s_index : nat;
  s_current : option task;
  s_todo : list task;
  s_result : pstate;
  s_history : list event;
}.

(** Task [i] has reached [t]: the loop goes on as far as it can without an
    answer from outside. *)
Fixpoint serial_enter (i : nat) (t : task) (todo : list task) (h : list event)
    {struct todo} : serial_state :=
  match t with
  | Ret (Fulfilled v) =>
      match todo with
      | [] =>
          {| s_index := i; s_current := None; s_todo := [];
             s_result := Settled (Fulfilled VUndefined);
             s_history := Task i (Ended (Fulfilled v)) :: h |}
      | t' :: rest =>
          serial_enter (S i) t' rest
            (Task (S i) Started :: Task i (Ended (Fulfilled v)) :: h)
      end
  | Ret (Rejected e) =>
      {| s_index := i; s_current := None; s_todo := todo;
         s_result := Settled (Rejected e);
         s_history := Task i (Ended (Rejected e)) :: h |}
  | _ =>
      {| s_index := i; s_current := Some t; s_todo := todo;
         s_result := Pending;
         s_history := Task i (arrive t) :: h |}
  end.

Definition wait_serial (tasks : list task) : serial_state :=
  match tasks with
  | [] =>
      {| s_index := 0; s_current := None; s_todo := [];
         s_result := Settled (Fulfilled VUndefined); s_history := [] |}
  | t :: rest => serial_enter 0 t rest [Task 0 Started]
  end.

Definition serial_deliver (st : serial_state) (i : nat) (r : response) : serial_state :=
  match s_current st with
  | Some t =>
      if Nat.eqb i (s_index st) then
        match resume t r with
        | Some t' =>
            serial_enter (s_index st) t' (s_todo st)
              (Task i (Answered r) :: s_history st)
        | None => st
        end
      else st
  | None => st
  end.

(** A coordination call in progress, with the process it runs in. *)
Inductive coordination :=
| Serially (st : serial_state)
| Jointly (p : pool).

Record runtime := {
  rt_process : process;
  rt_coord : coordination;
}.

(** [async wait(...tasks)]: the toggle is read when the call is made. *)
Definition wait (proc : process) (tasks : list task) : runtime :=
  {| rt_process := proc;
     rt_coord := if serial proc then Serially (wait_serial tasks)
                 else Jointly (wait_parallel tasks) |}.

(** The outside world answers task [i] with [r]. *)
Definition deliver (rt : runtime) (a : nat * response) : runtime :=
  {| rt_process := rt_process rt;
     rt_coord := match rt_coord rt with
                 | Serially st => Serially (serial_deliver st a.1 a.2)
                 | Jointly p => Jointly (pool_deliver p a.1 a.2)
                 end |}.

Definition answers (rt : runtime) (schedule : list (nat * response)) : runtime :=
  fold_left deliver schedule rt.

Definition history (rt : runtime) : list event :=
  match rt_coord rt with
  | Serially st => s_history st
  | Jointly p => p_history p
  end.

(** The promise returned by [wait]: an async function fulfils with
    [undefined] when its body ends. *)
Definition result (rt : runtime) : pstate :=
  match rt_coord rt with
  | Serially st => s_result st
  | Jointly p =>
      match outcome (agg p) with
      | Settled (Fulfilled _) => Settled (Fulfilled VUndefined)
      | other => other
      end
  end.

Definition buildMain (proc : process) : runtime :=
  wait proc (buildMain_tasks proc).

Definition pool_answers (p : pool) (schedule : list (nat * response)) : pool :=
  fold_left (fun p a => pool_deliver p a.1 a.2) schedule p.

(** *** lima.mjs: run *)

(** Calling an async function: it runs up to its first suspension and
    hands back its promise. *)
Definition call (t : task) (started : list task) : jsval * list task :=
  (VPromise (length started), started ++ [t]).

(** [process.env.M1 !== '0' && (process.env.M1 || process.arch === 'arm64')]. *)
Definition m1_requested (proc : process) : bool :=
  let M1 := env proc !! "M1" in
  negb (bool_decide (M1 = Some "0"))
  && (truthy_string M1 || String.eqb (arch proc) "arm64").

Definition run (proc : process) : pool :=
  let arch := "x86_64" in
  let '(platform, promises, started) :=
    if String.eqb (platform proc) "darwin" then
      if m1_requested proc then
        let m1arch := "aarch64" in
        let m1platform := "macos-" +:+ m1arch in
        let '(p1, started) := call (getLima proc m1platform) [] in
        let '(p2, started) := call (getAlpineLima proc m1arch m1platform) started in
        ("macos", [VArray [p1; p2]], started)
      else ("macos", [], [])
    else (platform proc, [], []) in
  let '(p1, started) := call (getLima proc platform) started in
  let '(p2, started) := call (getAlpineLima proc arch platform) started in
  pool_of started (promises ++ [VArray [p1; p2]]).

(** The same calls with the promises themselves handed to [Promise.all]. *)
Definition flat_inputs (ins : list jsval) : list jsval :=
  flat_map (fun x => match x with VArray elems => elems | _ => [x] end) ins.

(** ** Reading a history *)

(** The events of task [i], newest first. *)
Definition of_task (i : nat) (h : list event) : list tevent :=
  omap (fun ev => match ev with
                  | Task j te => if Nat.eqb j i then Some te else None
                  | AwaitAll => None
                  end) h.

(** The positions of the tasks called, in the order of the calls. *)
Definition starts (h : list event) : list nat :=
  reverse (omap (fun ev => match ev with Task i Started => Some i | _ => None end) h).

(** The first rejection of a task to surface. *)
Fixpoint first_rejection (h : list event) : option error :=
  match h with
  | [] => None
  | ev :: older =>
      match first_rejection older with
      | Some e => Some e
      | None =>
          match ev with
          | Task _ (Ended (Rejected e)) => Some e
          | _ => None
          end
      end
  end.

(** A task alone: [solo t0 t h] when the task that started as [t0] has
    reached [t] and [h] is what happened to it. *)
Inductive solo (t0 : task) : task -> list tevent -> Prop :=
| solo_called : solo t0 t0 [arrive t0; Started]
| solo_answered t h r t' :
    solo t0 t h -> resume t r = Some t' ->
    solo t0 t' (arrive t' :: Answered r :: h).

(** ** The Resource Fetcher *)

(** [scripts/lib/download.mjs] is not among the sources; lima.mjs only
    calls it.  This module follows sections 3 and 4.3 of the
    specification. *)
Module Fetcher.

Definition path := list string.
Definition bytes := list Byte.byte.

(** Modelled from the spec: the Download Descriptor of
    [scripts/lib/download.mjs]: source URL, destination path, expected
    checksum, checksum algorithm and required access mode. *)
Record descriptor := {
  url : string;
  dest : path;
  expectedChecksum : string;
  checksumAlgorithm : string;
  access : option Z;
}.

(** Modelled from the spec: a file of [scripts/lib/download.mjs]'s
    destination tree, its content and its permission bits. *)
Record file := {
  content : bytes;
  mode : Z;
}.

(** Modelled from the spec: what a fetch of [scripts/lib/download.mjs]
    reads and changes: the files and directories on disk, the bodies the
    network serves, and the requests issued so far, oldest first. *)
Record world := {
  files : gmap path file;
  dirs : gset path;
  new_mode : Z;                   (* the bits a new file is created with *)
  remote : gmap string bytes;
  requests : list string;
}.

(** Modelled from the spec: the failures of a fetch named in section 7. *)
Inductive failure :=
| IntegrityFailure (expected actual : string)
| NetworkFailure (url : string).

Inductive fetched :=
| Success
| Failure (f : failure).

Definition parent (p : path) : path := removelast p.

(** All the directories on the way to [p], [p] included. *)
Fixpoint ancestors (p : path) : list path :=
  match p with
  | [] => [[]]
  | segment :: rest => [] :: map (cons segment) (ancestors rest)
  end.

(** Modelled from the spec: "the destination directory is created
    (recursively) if absent". *)
Definition mkdir_recursive (p : path) (w : world) : world :=
  {| files := files w;
     dirs := list_to_set (ancestors p) ∪ dirs w;
     new_mode := new_mode w;
     remote := remote w;
     requests := requests w |}.

(** Modelled from the spec: the network request for the resource. *)
Definition request (u : string) (w : world) : option bytes * world :=
  (remote w !! u,
   {| files := files w; dirs := dirs w; new_mode := new_mode w;
      remote := remote w; requests := requests w ++ [u] |}).

(** Modelled from the spec: the body is written to the destination. *)
Definition write (p : path) (body : bytes) (w : world) : world :=
  {| files := <[p := {| content := body;
                        mode := default (new_mode w) (mode <$> files w !! p) |}]>
                (files w);
     dirs := dirs w; new_mode := new_mode w;
     remote := remote w; requests := requests w |}.

(** Modelled from the spec: "the destination's permission bits are
    adjusted to guarantee" the required access. *)
Definition grant (p : path) (acc : option Z) (w : world) : world :=
  match acc with
  | Some bits =>
      {| files := alter (fun f => {| content := content f;
                                     mode := Z.lor (mode f) bits |}) p (files w);
         dirs := dirs w; new_mode := new_mode w;
         remote := remote w; requests := requests w |}
  | None => w
  end.

Section WithChecksum.

(** The digest of a content under a named algorithm. *)
Variable checksum : string -> bytes -> string.

(** Modelled from the spec: the check made before downloading, "whether
    a file already exists at the destination; if so, compute its
    checksum using the specified algorithm and compare against the
    expected checksum". *)
Definition up_to_date (d : descriptor) (w : world) : bool :=
  match files w !! dest d with
  | Some f => String.eqb (checksum (checksumAlgorithm d) (content f))
                         (expectedChecksum d)
  | None => false
  end.

(** Modelled from the spec: the Resource Fetcher ([download] of
    [scripts/lib/download.mjs]), which is not among the sources.  An
    existing destination whose checksum matches is kept without any
    request; otherwise the directory is made, the body is requested and
    written, and the written file is checked again. *)
Definition download (d : descriptor) (w : world) : fetched * world :=
  if up_to_date d w then (Success, w)
  else
    let w := mkdir_recursive (parent (dest d)) w in
    match request (url d) w with
    | (None, w) => (Failure (NetworkFailure (url d)), w)
    | (Some body, w) =>
        let w := write (dest d) body w in
        let actual := checksum (checksumAlgorithm d) body in
        if String.eqb actual (expectedChecksum d) then
          (Success, grant (dest d) (access d) w)
        else
          (Failure (IntegrityFailure (expectedChecksum d) actual), w)
    end.

End WithChecksum.

End Fetcher.

(** ** Definitions that follow the words of the specification *)

(** The first white-space-delimited field of a text: its characters up to
    the first white space. *)
Fixpoint first_field (s : jsstring) : jsstring :=
  match s with
  | [] => []
  | c :: rest => if is_space c then [] else c :: first_field rest
  end.

(** The values [os.platform()] can take. *)
Definition node_platforms : list string :=
  ["aix"; "android"; "darwin"; "freebsd"; "linux"; "openbsd"; "sunos"; "win32"].

(** A text as its code units. *)
Definition units (s : string) : jsstring :=
  map Ascii.N_of_ascii (String.list_ascii_of_string s).

(** The process after [process.argv] has been replaced. *)
Definition with_argv (args : list string) (proc : process) : process :=
  {| argv := args; platform := platform proc; arch := arch proc;
     env := env proc; cwd := cwd proc; srcDir := srcDir proc |}.

(** ** Invariants of the serial discipline *)

(** Each call of a task but the first comes after the fulfilment of the
    task before it. *)
Fixpoint in_sequence (h : list event) : Prop :=
  match h with
  | [] => True
  | ev :: older =>
      match ev with
      | Task i Started =>
          match i with
          | 0 => True
          | S j => exists v, Task j (Ended (Fulfilled v)) ∈ older
          end
      | _ => True
      end /\ in_sequence older
  end.

(** Task [i] is about to reach [t]; [h] is what happened before. *)
Record entering (tasks : list task) (i : nat) (t : task) (todo : list task)
    (h : list event) : Prop := {
  e_seq : in_sequence h;
  e_bound : forall j te, Task j te ∈ h -> j <= i;
  e_clean : forall j e, Task j (Ended (Rejected e)) ∉ h;
  e_starts : starts h = seq 0 (S i);
  e_todo : todo = drop (S i) tasks;
  e_done : forall j t0, tasks !! j = Some t0 -> j < i ->
           exists t', solo t0 t' (of_task j h);
  e_cur : exists t0, tasks !! i = Some t0 /\ solo t0 t (arrive t :: of_task i h);
}.

Record serial_inv (tasks : list task) (st : serial_state) : Prop := {
  i_seq : in_sequence (s_history st);
  i_bound : forall j te, Task j te ∈ s_history st -> j <= s_index st;
  i_reject : forall j e, Task j (Ended (Rejected e)) ∈ s_history st ->
             j = s_index st /\ s_result st = Settled (Rejected e)
             /\ s_current st = None;
  i_starts : starts (s_history st) = seq 0 (S (s_index st));
  i_range : s_index st < length tasks;
  i_todo : s_todo st = drop (S (s_index st)) tasks;
  i_solo : forall j t0, tasks !! j = Some t0 -> j <= s_index st ->
           exists t', solo t0 t' (of_task j (s_history st));
  i_cur : forall t, s_current st = Some t ->
          s_result st = Pending
          /\ exists t0, tasks !! s_index st = Some t0
                        /\ solo t0 t (of_task (s_index st) (s_history st));
  i_idle : s_current st = None -> s_result st <> Pending;
  i_fulfilled : forall v, s_result st = Settled (Fulfilled v) ->
                S (s_index st) = length tasks
                /\ exists v', Task (s_index st) (Ended (Fulfilled v')) ∈ s_history st;
}.

Definition serial_answers (st : serial_state) (schedule : list (nat * response)) :
    serial_state :=
  fold_left (fun st a => serial_deliver st a.1 a.2) schedule st.

(** ** Invariants of the parallel discipline *)

(** The settlements recorded in a history, oldest first. *)
Definition endings (h : list event) : list (nat * settle) :=
  reverse (omap (fun ev => match ev with
                           | Task i (Ended s) => Some (i, s)
                           | _ => None
                           end) h).

(** The tasks of a list that are settled as soon as they are called. *)
Fixpoint settled_from (i : nat) (tasks : list task) : list (nat * settle) :=
  match tasks with
  | [] => []
  | Ret s :: rest => (i, s) :: settled_from (S i) rest
  | _ :: rest => settled_from (S i) rest
  end.

Definition fresh_aggregate (n : nat) : aggregate :=
  {| remaining := n;
     values := replicate n VUndefined;
     outcome := if Nat.eqb n 0 then Settled (Fulfilled (VArray [])) else Pending |}.

(** [Promise.all] over [n] inputs after the reactions [notes]. *)
Definition notified (n : nat) (notes : list (nat * settle)) : aggregate :=
  fold_left (fun a note => notify note.1 note.2 a) notes (fresh_aggregate n).

Fixpoint first_rejected (notes : list (nat * settle)) : option error :=
  match notes with
  | [] => None
  | (_, Rejected e) :: _ => Some e
  | (_, Fulfilled _) :: later => first_rejected later
  end.

Fixpoint fulfilments (notes : list (nat * settle)) : nat :=
  match notes with
  | [] => 0
  | (_, Fulfilled _) :: later => S (fulfilments later)
  | (_, Rejected _) :: later => fulfilments later
  end.

Record pool_inv (tasks : list task) (p : pool) : Prop := {
  q_slots : length (slots p) = length tasks;
  q_inputs : inputs p = map VPromise (seq 0 (length tasks));
  q_history : exists after,
      p_history p = after ++ AwaitAll :: launch 0 tasks []
      /\ forall i, Task i Started ∉ after;
  q_solo : forall i t0, tasks !! i = Some t0 ->
           exists t, slots p !! i = Some t /\ solo t0 t (of_task i (p_history p));
  q_agg : agg p = notified (length tasks) (endings (p_history p));
  q_endings : forall i s, (i, s) ∈ endings (p_history p) ->
              slots p !! i = Some (Ret s);
  q_nodup : NoDup (endings (p_history p)).*1;
}.

(** What task [i] is doing at the moment. *)
Definition slot (rt : runtime) (i : nat) : option task :=
  match rt_coord rt with
  | Serially st => if Nat.eqb i (s_index st) then s_current st else None
  | Jointly p => slots p !! i
  end.

(** ** The states of a nerdctl stub build *)

(** After the copy has been answered. *)
Definition stub_copied (s : settle) : task :=
  match s with
  | Fulfilled _ => Ret (Fulfilled VUndefined)
  | Rejected e => Ret (Rejected e)
  end.

(** After the compiler is gone. *)
Definition stub_built (proc : process) (os : string) (r : child_run) : task :=
  match spawn_promise r with
  | Settled (Fulfilled _) => Await (stub_copy proc os) stub_copied
  | Settled (Rejected e) => Ret (Rejected e)
  | Pending => Stalled (uncaught (deliver_events spawn_listeners (events_of r)))
  end.

(** Where a stub build can be, and what has happened to it by then,
    newest event first. *)
Inductive stub_state (proc : process) (os : string) : task -> list tevent -> Prop :=
| stub_building :
    stub_state proc os
      (Child (stub_build proc os) (stub_built proc os))
      [Began (WChild (stub_build proc os)); Started]
| stub_compiled r :
    stub_state proc os
      (stub_built proc os r)
      [arrive (stub_built proc os r); Answered (ChildGone r);
       Began (WChild (stub_build proc os)); Started]
| stub_staged r v s :
    spawn_promise r = Settled (Fulfilled v) ->
    stub_state proc os
      (stub_copied s)
      [arrive (stub_copied s); Answered (Answer s);
       Began (WPromise (stub_copy proc os)); Answered (ChildGone r);
       Began (WChild (stub_build proc os)); Started].

(** ** Sample processes and tasks *)

Definition sample_serial : process :=
  {| argv := ["node"; "scripts/build.mjs"; "--serial"];
     platform := "win32"; arch := "x64"; env := ∅;
     cwd := "C:\rd"; srcDir := "C:\rd" |}.

Definition sample_parallel : process :=
  with_argv ["node"; "scripts/build.mjs"] sample_serial.

Definition sample_mac : process :=
  {| argv := ["node"; "scripts/download/lima.mjs"];
     platform := "darwin"; arch := "arm64"; env := ∅;
     cwd := "/rd"; srcDir := "/rd" |}.

(** A task that copies one file and is done. *)
Definition copy_task (name : string) : task :=
  await (CopyFile name (name +:+ ".bak")) (fun _ => Ret (Fulfilled VUndefined)).

(** ** build-utils.mjs: directories and the bundler configuration *)

(** [get rendererSrcDir()], [get distDir()], [get appDir()]: [path.resolve]
    of an absolute directory and plain segments, modelled as [path_join]. *)
Definition rendererSrcDir (proc : process) : string :=
  path_join proc [srcDir proc; "src"].






(** ** build-utils.mjs: the arguments of spawn *)

(** The keys of an options object that the callers set. *)
Record call_options := {
  co_cwd : option string;
  co_stdio : option string;
  co_env : option (gmap string string);
}.

(** A rest argument of [spawn]: a text, or an object. *)
Inductive spawn_arg :=
| ArgText (s : string)
| ArgObject (o : call_options).

(** The options handed to [childProcess.spawn]. *)
Record child_options := {
  ch_cwd : string;
  ch_stdio : string;
  ch_env : option (gmap string string);
}.

(** [Object.assign(options, o)]. *)
Definition assign (options : child_options) (o : call_options) : child_options :=
  {| ch_cwd := default (ch_cwd options) (co_cwd o);
     ch_stdio := default (ch_stdio options) (co_stdio o);
     ch_env := match co_env o with Some e => Some e | None => ch_env options end |}.

(** The head of [spawn]: [args.concat().pop() instanceof Object] looks at
    the last argument, [args.pop()] takes it away. *)
Definition spawn_call (proc : process) (command : string) (args : list spawn_arg) :
    string * list spawn_arg * child_options :=
  let options := {| ch_cwd := srcDir proc; ch_stdio := "inherit"; ch_env := None |} in
  match last args with
  | Some (ArgObject o) => (command, removelast args, assign options o)
  | _ => (command, args, options)
  end.

(** The texts among arguments. *)
Definition arg_texts (args : list spawn_arg) : list string :=
  omap (fun a => match a with ArgText s => Some s | ArgObject _ => None end) args.

Definition invocation_of (call : string * list spawn_arg * child_options) : invocation :=
  {| command := call.1.1;
     arguments := arg_texts call.1.2;
     inv_cwd := ch_cwd call.2;
     inv_env := ch_env call.2;
     inv_stdio := ch_stdio call.2 |}.

(** The invocation [buildWSLHelper] makes. *)
Definition wsl_build (proc : process) : invocation :=
  spawn_invocation proc "go"
    ["build"; "-ldflags"; "-d -s -w"; "-o";
     path_join proc [srcDir proc; "resources"; "linux"; "bin"; "wsl-helper"]; "."]
    (Some {| opt_cwd := Some (path_join proc [srcDir proc; "src"; "go"; "wsl-helper"]);
             opt_env := Some (<["GOOS" := "linux"]> (env proc)) |}).

(** ** lima.mjs: the stages of getLima and getAlpineLima *)

Definition lima_manifest (platform : string) : operation :=
  GetResource (lima_url platform +:+ ".sha512sum").

Definition lima_download (proc : process) (platform : string) (checksum : jsval) :
    operation :=
  Download (lima_url platform) (lima_tar proc platform) checksum "sha512" W_OK.

Definition lima_mkdir (proc : process) (platform : string) : operation :=
  Mkdir (lima_dir proc platform) true.

(** [getLima] after the answer to each of its four waits. *)
Definition lima_after_tar (r : child_run) : task :=
  await_emitter (extract_outcome r) (fun _ => Ret (Fulfilled VUndefined)).

Definition lima_after_mkdir (proc : process) (platform : string) (s : settle) : task :=
  match s with
  | Fulfilled _ => Child (tar_invocation proc platform) lima_after_tar
  | Rejected e => Ret (Rejected e)
  end.

Definition lima_after_download (proc : process) (platform : string) (s : settle) : task :=
  match s with
  | Fulfilled _ => Await (lima_mkdir proc platform) (lima_after_mkdir proc platform)
  | Rejected e => Ret (Rejected e)
  end.

Definition lima_after_manifest (proc : process) (platform : string) (s : settle) : task :=
  match s with
  | Fulfilled manifest =>
      first_of_split manifest (fun expectedChecksum =>
        Await (lima_download proc platform expectedChecksum)
              (lima_after_download proc platform))
  | Rejected e => Ret (Rejected e)
  end.

(** What has happened to [getLima] when each operation is begun, newest
    event first. *)
Definition lima_requested (platform : string) : list tevent :=
  [Began (WPromise (lima_manifest platform)); Started].

Definition lima_downloading (proc : process) (platform : string) (body : jsstring) :
    list tevent :=
  Began (WPromise (lima_download proc platform (VText (first_field body))))
  :: Answered (Answer (Fulfilled (VText body))) :: lima_requested platform.

Definition lima_making (proc : process) (platform : string) (body : jsstring)
    (v1 : jsval) : list tevent :=
  Began (WPromise (lima_mkdir proc platform))
  :: Answered (Answer (Fulfilled v1)) :: lima_downloading proc platform body.

Definition lima_extracting (proc : process) (platform : string) (body : jsstring)
    (v1 v2 : jsval) : list tevent :=
  Began (WChild (tar_invocation proc platform))
  :: Answered (Answer (Fulfilled v2)) :: lima_making proc platform body v1.

(** Where [getLima] can be, and what has happened to it by then. *)
Inductive lima_state (proc : process) (platform : string) :
    task -> list tevent -> Prop :=
| lima_at_manifest :
    lima_state proc platform (getLima proc platform) (lima_requested platform)
| lima_at_download s :
    lima_state proc platform
      (lima_after_manifest proc platform s)
      (arrive (lima_after_manifest proc platform s)
       :: Answered (Answer s) :: lima_requested platform)
| lima_at_mkdir body s :
    lima_state proc platform
      (lima_after_download proc platform s)
      (arrive (lima_after_download proc platform s)
       :: Answered (Answer s) :: lima_downloading proc platform body)
| lima_at_tar body v1 s :
    lima_state proc platform
      (lima_after_mkdir proc platform s)
      (arrive (lima_after_mkdir proc platform s)
       :: Answered (Answer s) :: lima_making proc platform body v1)
| lima_at_end body v1 v2 r :
    lima_state proc platform
      (lima_after_tar r)
      (arrive (lima_after_tar r)
       :: Answered (ChildGone r) :: lima_extracting proc platform body v1 v2).

Definition alpine_manifest (arch : string) : operation :=
  GetResource (alpine_url arch +:+ ".sha512sum").

Definition alpine_download (proc : process) (arch platform : string)
    (checksum : jsval) : operation :=
  Download (alpine_url arch) (alpine_dest proc platform) checksum "sha512" W_OK.

Definition alpine_after_download (s : settle) : task :=
  match s with
  | Fulfilled _ => Ret (Fulfilled VUndefined)
  | Rejected e => Ret (Rejected e)
  end.

Definition alpine_after_manifest (proc : process) (arch platform : string)
    (s : settle) : task :=
  match s with
  | Fulfilled manifest =>
      first_of_split manifest (fun expectedChecksum =>
        Await (alpine_download proc arch platform expectedChecksum)
              alpine_after_download)
  | Rejected e => Ret (Rejected e)
  end.

Definition alpine_requested (arch : string) : list tevent :=
  [Began (WPromise (alpine_manifest arch)); Started].

Definition alpine_downloading (proc : process) (arch platform : string)
    (body : jsstring) : list tevent :=
  Began (WPromise (alpine_download proc arch platform (VText (first_field body))))
  :: Answered (Answer (Fulfilled (VText body))) :: alpine_requested arch.

Inductive alpine_state (proc : process) (arch platform : string) :
    task -> list tevent -> Prop :=
| alpine_at_manifest :
    alpine_state proc arch platform
      (getAlpineLima proc arch platform) (alpine_requested arch)
| alpine_at_download s :
    alpine_state proc arch platform
      (alpine_after_manifest proc arch platform s)
      (arrive (alpine_after_manifest proc arch platform s)
       :: Answered (Answer s) :: alpine_requested arch)
| alpine_at_end body s :
    alpine_state proc arch platform
      (alpine_after_download s)
      (arrive (alpine_after_download s)
       :: Answered (Answer s) :: alpine_downloading proc arch platform body).

(** ** Tasks that are settled when they are called *)

(** The first rejection in a list of settlements. *)
Fixpoint first_failure (ss : list settle) : option error :=
  match ss with
  | [] => None
  | Rejected e :: _ => Some e
  | Fulfilled _ :: rest => first_failure rest
  end.

Definition verdict (ss : list settle) : pstate :=
  match first_failure ss with
  | Some e => Settled (Rejected e)
  | None => Settled (Fulfilled VUndefined)
  end.

(** * Properties *)

Example spawn_exit0 : spawn_promise (Exited 0) = Settled (Fulfilled (VNumber 0%Z)).
Proof. reflexivity. Qed.

Example spawn_exit3 :
  spawn_promise (Exited 3) = Settled (Rejected (Error "Process exited with code 3")).
Proof. vm_compute. reflexivity. Qed.

Example extract_sigterm :
  extract_promise (Killed "SIGTERM")
  = Settled (Rejected (Error "Lima extract failed with SIGTERM")).
Proof. vm_compute. reflexivity. Qed.


(** ** The Process Supervisor *)

Lemma resolve_settled v s : resolve v (Settled s) = Settled s.
Proof. reflexivity. Qed.

Lemma reject_settled e s : reject e (Settled s) = Settled s.
Proof. reflexivity. Qed.

Lemma spawn_promise_exited code :
  spawn_promise (Exited code)
  = if bool_decide (code = 0%Z) then Settled (Fulfilled (VNumber 0))
    else Settled (Rejected (Error ("Process exited with code " +:+ pretty code))).
Proof.
  unfold spawn_promise, deliver_events; cbn.
  unfold spawn_on_exit; cbn.
  destruct (decide (code = 0%Z)) as [->|Hc].
  - reflexivity.
  - rewrite (bool_decide_eq_false_2 (Some code = Some 0%Z)) by congruence.
    by rewrite (bool_decide_eq_false_2 (code = 0%Z)).
Qed.

Lemma spawn_promise_killed signal :
  spawn_promise (Killed signal)
  = if String.eqb signal EmptyString || String.eqb signal "SIGTERM"
    then Settled (Fulfilled VNull)
    else Settled (Rejected (Error ("Process exited with signal " +:+ signal))).
Proof.
  unfold spawn_promise, deliver_events; cbn.
  unfold spawn_on_exit; cbn.
  destruct (String.eqb_spec signal EmptyString) as [->|Hne]; [reflexivity|].
  destruct (String.eqb_spec signal "SIGTERM") as [->|Hnt]; [reflexivity|].
  rewrite bool_decide_eq_false_2 by congruence. reflexivity.
Qed.

(** C1.  The promise returned by [spawn] is fulfilled when the child exits
    with code 0 or is terminated by SIGTERM; it is rejected with a
    describing error when the exit code is another number or the child is
    terminated by another signal, and with the error of the platform,
    unchanged, when the child could not be started. *)
Theorem spawn_settlement :
  spawn_promise (Exited 0) = Settled (Fulfilled (VNumber 0))
  /\ spawn_promise (Killed "SIGTERM") = Settled (Fulfilled VNull)
  /\ (forall code : Z, code <> 0%Z ->
        spawn_promise (Exited code)
        = Settled (Rejected (Error ("Process exited with code " +:+ pretty code))))
  /\ (forall signal : string, signal <> EmptyString -> signal <> "SIGTERM" ->
        spawn_promise (Killed signal)
        = Settled (Rejected (Error ("Process exited with signal " +:+ signal))))
  /\ (forall (errno : Z) (err : error),
        spawn_promise (SpawnFailed errno err) = Settled (Rejected err)).
Proof.
  repeat split.
  - intros code Hc. rewrite spawn_promise_exited.
    by rewrite bool_decide_eq_false_2.
  - intros signal Hne Hnt. rewrite spawn_promise_killed.
    destruct (String.eqb_spec signal EmptyString); [done|].
    destruct (String.eqb_spec signal "SIGTERM"); done.
Qed.

Lemma spawn_settlement_witness :
  spawn_promise (Exited 3)
  = Settled (Rejected (Error ("Process exited with code " +:+ pretty 3%Z)))
  /\ spawn_promise (Killed "SIGKILL")
     = Settled (Rejected (Error ("Process exited with signal " +:+ "SIGKILL"))).
Proof.
  destruct spawn_settlement as (_ & _ & Hcode & Hsignal & _).
  split.
  - apply (Hcode 3%Z). discriminate.
  - apply (Hsignal "SIGKILL"); discriminate.
Defined.

(** ** The Archive Installer *)

Lemma extract_promise_exited code :
  extract_promise (Exited code)
  = if bool_decide (code = 0%Z) then Settled (Fulfilled VUndefined)
    else Settled (Rejected (Error ("Lima extract failed with " +:+ pretty code))).
Proof.
  unfold extract_promise, extract_outcome, deliver_events; cbn.
  unfold extract_on_exit, code_or_signal.
  destruct (decide (code = 0%Z)) as [->|Hc].
  - reflexivity.
  - rewrite (bool_decide_eq_false_2 (Some code = Some 0%Z)) by congruence.
    by rewrite !(bool_decide_eq_false_2 (code = 0%Z)).
Qed.

Lemma extract_promise_killed signal :
  extract_promise (Killed signal)
  = Settled (Rejected (Error ("Lima extract failed with " +:+ signal))).
Proof. reflexivity. Qed.

(** C4, as the specification states it, fails: tar terminated by SIGTERM is
    a success for [spawn] and a failure for [getLima]. *)
Lemma extract_is_not_spawn_on_SIGTERM :
  spawn_promise (Killed "SIGTERM") = Settled (Fulfilled VNull)
  /\ extract_promise (Killed "SIGTERM")
     = Settled (Rejected (Error "Lima extract failed with SIGTERM"))
  /\ is_fulfilled (extract_promise (Killed "SIGTERM"))
     <> is_fulfilled (spawn_promise (Killed "SIGTERM")).
Proof. repeat split. cbn. discriminate. Qed.

(** C4, amended.  [getLima] settles on its own ['exit'] listener: it
    succeeds exactly when tar exits with code 0 and fails with "Lima
    extract failed with" and the exit code or the signal otherwise, SIGTERM
    included; for a process that ran and was not terminated by SIGTERM its
    verdict is that of [spawn]. *)
Theorem extract_settlement :
  extract_promise (Exited 0) = Settled (Fulfilled VUndefined)
  /\ (forall code : Z, code <> 0%Z ->
        extract_promise (Exited code)
        = Settled (Rejected (Error ("Lima extract failed with " +:+ pretty code))))
  /\ (forall signal : string,
        extract_promise (Killed signal)
        = Settled (Rejected (Error ("Lima extract failed with " +:+ signal))))
  /\ (forall code : Z,
        is_fulfilled (extract_promise (Exited code))
        = is_fulfilled (spawn_promise (Exited code)))
  /\ (forall signal : string, signal <> EmptyString -> signal <> "SIGTERM" ->
        is_fulfilled (extract_promise (Killed signal))
        = is_fulfilled (spawn_promise (Killed signal))).
Proof.
  repeat split.
  - intros code Hc. rewrite extract_promise_exited.
    by rewrite bool_decide_eq_false_2.
  - intros code. rewrite extract_promise_exited, spawn_promise_exited.
    by case_bool_decide.
  - intros signal Hne Hnt. rewrite extract_promise_killed, spawn_promise_killed.
    destruct (String.eqb_spec signal EmptyString); [done|].
    destruct (String.eqb_spec signal "SIGTERM"); done.
Qed.

Lemma extract_settlement_witness :
  extract_promise (Exited 2)
  = Settled (Rejected (Error ("Lima extract failed with " +:+ pretty 2%Z)))
  /\ is_fulfilled (extract_promise (Killed "SIGKILL"))
     = is_fulfilled (spawn_promise (Killed "SIGKILL")).
Proof.
  destruct extract_settlement as (_ & Hcode & _ & _ & Hsignal).
  split.
  - apply (Hcode 2%Z). discriminate.
  - apply (Hsignal "SIGKILL"); discriminate.
Defined.

(** When tar cannot be started nothing listens to ['error']: the error
    escapes and the promise stays pending. *)
Lemma extract_spawn_failed errno err :
  extract_outcome (SpawnFailed errno err)
  = {| promise := Pending; uncaught := Some err |}.
Proof. reflexivity. Qed.

(** ** The Platform Build Pipeline *)

Lemma node_platform_win32 (p : string) :
  In p node_platforms -> String.prefix "win" p = true <-> p = "win32".
Proof.
  unfold node_platforms. cbn.
  intros H. repeat (destruct H as [<-|H]; [cbn; split; done|]). done.
Qed.

(** C5.  On a host that is not Windows [buildMain] hands one task, the
    bundling, to [wait]; on Windows it hands four, in one list and one call:
    the bundling, the WSL helper and the two nerdctl stubs.  Its promise is
    the one [wait] returns. *)
Theorem buildMain_coordination (proc : process) :
  In (platform proc) node_platforms ->
  (platform proc <> "win32" ->
     buildMain_tasks proc = [buildJavaScript proc]
     /\ buildMain proc = wait proc [buildJavaScript proc])
  /\ (platform proc = "win32" ->
        buildMain_tasks proc
        = [buildJavaScript proc; buildWSLHelper proc;
           buildNerdctlStub proc "windows"; buildNerdctlStub proc "linux"]
        /\ buildMain proc
           = wait proc [buildJavaScript proc; buildWSLHelper proc;
                        buildNerdctlStub proc "windows";
                        buildNerdctlStub proc "linux"])
  /\ (forall schedule,
        result (answers (buildMain proc) schedule)
        = result (answers (wait proc (buildMain_tasks proc)) schedule)).
Proof.
  intros Hnode. pose proof (node_platform_win32 _ Hnode) as Hwin.
  unfold buildMain, buildMain_tasks. repeat split.
  - destruct (String.prefix "win" (platform proc)); [|done].
    exfalso. by apply H, Hwin.
  - destruct (String.prefix "win" (platform proc)); [|done].
    exfalso. by apply H, Hwin.
  - apply Hwin in H. by rewrite H.
  - apply Hwin in H. by rewrite H.
Qed.

Lemma buildMain_coordination_witness :
  let linux := {| argv := ["node"; "build.mjs"]; platform := "linux";
                  arch := "x64"; env := ∅; cwd := "/repo"; srcDir := "/repo" |} in
  let windows := {| argv := ["node"; "build.mjs"]; platform := "win32";
                    arch := "x64"; env := ∅; cwd := "C:\repo"; srcDir := "C:\repo" |} in
  length (buildMain_tasks linux) = 1 /\ length (buildMain_tasks windows) = 4.
Proof.
  intros linux windows. split.
  - assert (Hin : In (platform linux) node_platforms) by (cbn; tauto).
    destruct (buildMain_coordination linux Hin) as ((-> & _) & _); [discriminate|].
    reflexivity.
  - assert (Hin : In (platform windows) node_platforms) by (cbn; tauto).
    destruct (buildMain_coordination windows Hin) as (_ & H & _).
    destruct H as (-> & _); reflexivity.
Defined.

(** ** The checksum manifest *)

Lemma split_from_first piece s :
  split_from piece false s !! 0 = Some (piece ++ first_field s).
Proof.
  revert piece. induction s as [|c rest IH]; intros piece; cbn.
  - by rewrite app_nil_r.
  - destruct (is_space c); cbn.
    + by rewrite app_nil_r.
    + rewrite IH. by rewrite <- app_assoc.
Qed.

Lemma split_spaces_first s : split_spaces s !! 0 = Some (first_field s).
Proof. apply split_from_first. Qed.

Example split_manifest :
  split_spaces (units "ab12  lima.tgz") = [units "ab12"; units "lima.tgz"].
Proof. reflexivity. Qed.

Example split_leading_space : split_spaces (units " ab") = [[]; units "ab"].
Proof. reflexivity. Qed.

Example lima_url_macos :
  lima_url "macos"
  = "https://github.com/rancher-sandbox/lima-and-qemu/releases/download/v1.23/lima-and-qemu.macos.tar.gz".
Proof. reflexivity. Qed.

(** C8.  [getLima] and [getAlpineLima] take no checksum from their caller:
    each first requests the resource URL with ".sha512sum" appended, and
    whatever text comes back, its first white-space-delimited field is the
    checksum the download is verified against, with sha512.  Nothing
    verifies the manifest between the two steps. *)
Theorem manifest_gives_checksum (proc : process) :
  (forall platform : string,
     arrive (getLima proc platform)
     = Began (WPromise (GetResource (lima_url platform +:+ ".sha512sum")))
     /\ forall body : jsstring,
          arrive <$> resume (getLima proc platform) (Answer (Fulfilled (VText body)))
          = Some (Began (WPromise
              (Download (lima_url platform) (lima_tar proc platform)
                 (VText (first_field body)) "sha512" W_OK))))
  /\ (forall arch platform : string,
        arrive (getAlpineLima proc arch platform)
        = Began (WPromise (GetResource (alpine_url arch +:+ ".sha512sum")))
        /\ forall body : jsstring,
             arrive <$> resume (getAlpineLima proc arch platform)
                               (Answer (Fulfilled (VText body)))
             = Some (Began (WPromise
                 (Download (alpine_url arch) (alpine_dest proc platform)
                    (VText (first_field body)) "sha512" W_OK)))).
Proof.
  split; intros; (split; [reflexivity|]); intros body; cbn;
    unfold first_of_split; by rewrite split_spaces_first.
Qed.

(** ** The Resource Fetcher *)

Section FetcherProperties.

Import Fetcher.
Variable checksum : string -> bytes -> string.

Lemma download_up_to_date d w :
  up_to_date checksum d w = true -> download checksum d w = (Success, w).
Proof. intros H. unfold download. by rewrite H. Qed.

Lemma up_to_date_after_write d w body :
  checksum (checksumAlgorithm d) body = expectedChecksum d ->
  up_to_date checksum d (grant (dest d) (access d) (write (dest d) body w)) = true.
Proof.
  intros Hsum. unfold up_to_date, grant, write.
  destruct (access d); cbn.
  - rewrite lookup_alter_eq, lookup_insert_eq. cbn.
    rewrite Hsum. apply String.eqb_refl.
  - rewrite lookup_insert_eq. cbn. rewrite Hsum. apply String.eqb_refl.
Qed.

(** C7.  When the destination exists and its checksum under the named
    algorithm is the expected one, the fetch succeeds and issues no
    request; so, when the network serves a body with the expected
    checksum, two fetches in a row both succeed and the second issues no
    request. *)
Theorem download_idempotent (d : descriptor) (w : world) :
  (forall f : file,
     files w !! dest d = Some f ->
     checksum (checksumAlgorithm d) (content f) = expectedChecksum d ->
     download checksum d w = (Success, w))
  /\ (forall body : bytes,
        remote w !! url d = Some body ->
        checksum (checksumAlgorithm d) body = expectedChecksum d ->
        let first := download checksum d w in
        let second := download checksum d first.2 in
        first.1 = Success /\ second.1 = Success
        /\ requests second.2 = requests first.2
        /\ second.2 = first.2).
Proof.
  split.
  - intros f Hf Hsum. apply download_up_to_date.
    unfold up_to_date. rewrite Hf, Hsum. apply String.eqb_refl.
  - intros body Hbody Hsum. cbn zeta.
    destruct (up_to_date checksum d w) eqn:Hup.
    + rewrite (download_up_to_date d w Hup). cbn.
      rewrite (download_up_to_date d w Hup). done.
    + assert (Hfirst : download checksum d w
               = (Success, grant (dest d) (access d)
                    (write (dest d) body
                       (request (url d) (mkdir_recursive (parent (dest d)) w)).2))).
      { unfold download. rewrite Hup. unfold request at 1. cbn [remote mkdir_recursive].
        rewrite Hbody. rewrite Hsum, String.eqb_refl. reflexivity. }
      rewrite Hfirst. cbn [fst snd].
      rewrite download_up_to_date by by apply up_to_date_after_write.
      done.
Qed.

End FetcherProperties.

Lemma download_idempotent_witness :
  let checksum := fun (_ : string) (b : Fetcher.bytes) => pretty (length b) in
  let d := {| Fetcher.url := "https://example/test.tar.gz";
              Fetcher.dest := ["dest"; "test.tar.gz"];
              Fetcher.expectedChecksum := "2";
              Fetcher.checksumAlgorithm := "sha512";
              Fetcher.access := Some 2%Z |} in
  let w := {| Fetcher.files := ∅; Fetcher.dirs := ∅; Fetcher.new_mode := 420%Z;
              Fetcher.remote := {["https://example/test.tar.gz" := [Byte.x01; Byte.x02]]};
              Fetcher.requests := [] |} in
  (Fetcher.download checksum d w).1 = Fetcher.Success
  /\ Fetcher.requests (Fetcher.download checksum d w).2 = ["https://example/test.tar.gz"]
  /\ (Fetcher.download checksum d (Fetcher.download checksum d w).2).1 = Fetcher.Success
  /\ Fetcher.requests (Fetcher.download checksum d (Fetcher.download checksum d w).2).2
     = ["https://example/test.tar.gz"].
Proof.
  intros checksum d w.
  destruct (download_idempotent checksum d w) as (_ & H).
  destruct (H [Byte.x01; Byte.x02]) as (H1 & H2 & H3 & _).
  - reflexivity.
  - reflexivity.
  - split; [exact H1|]. split; [reflexivity|]. split; [exact H2|].
    rewrite H3. reflexivity.
Defined.

(** ** Histories *)

Lemma of_task_cons_same i te h : of_task i (Task i te :: h) = te :: of_task i h.
Proof. unfold of_task; cbn. by rewrite Nat.eqb_refl. Qed.

Lemma of_task_cons_other i j te h :
  j <> i -> of_task i (Task j te :: h) = of_task i h.
Proof.
  intros Hne. unfold of_task; cbn.
  destruct (Nat.eqb_spec j i); [done|]. reflexivity.
Qed.

Lemma elem_of_of_task i te h : te ∈ of_task i h <-> Task i te ∈ h.
Proof.
  unfold of_task. rewrite list_elem_of_omap. split.
  - intros (ev & Hin & Hev). destruct ev as [j te'|]; [|done].
    destruct (Nat.eqb_spec j i); [|done]. by simplify_eq.
  - intros Hin. exists (Task i te). split; [done|]. by rewrite Nat.eqb_refl.
Qed.

Lemma of_task_unseen i h :
  (forall te, Task i te ∉ h) -> of_task i h = [].
Proof.
  intros Hno. destruct (of_task i h) as [|te l] eqn:E; [done|].
  exfalso. apply (Hno te), elem_of_of_task. rewrite E. left.
Qed.

Lemma of_task_split i h newer older te :
  h = newer ++ Task i te :: older ->
  of_task i h = of_task i newer ++ te :: of_task i older.
Proof.
  intros ->. unfold of_task. rewrite omap_app. cbn. by rewrite Nat.eqb_refl.
Qed.

Lemma starts_cons ev h :
  starts (ev :: h)
  = starts h ++ match ev with Task i Started => [i] | _ => [] end.
Proof.
  unfold starts.
  destruct ev as [i [| | | |]|]; rewrite ?app_nil_r; try reflexivity.
  exact (reverse_cons _ _).
Qed.

Lemma elem_of_starts i h : i ∈ starts h <-> Task i Started ∈ h.
Proof.
  unfold starts. rewrite elem_of_reverse, list_elem_of_omap. split.
  - intros (ev & Hin & Hev). destruct ev as [j [| | | |]|]; by simplify_eq.
  - intros Hin. by exists (Task i Started).
Qed.

Lemma in_sequence_split h :
  in_sequence h ->
  forall newer older j,
    h = newer ++ Task (S j) Started :: older ->
    exists v, Task j (Ended (Fulfilled v)) ∈ older.
Proof.
  intros Hseq newer. revert h Hseq.
  induction newer as [|ev newer IH]; intros h Hseq older j ->; cbn in Hseq.
  - tauto.
  - destruct Hseq as [_ Hseq]. by eapply IH.
Qed.

Lemma first_rejection_none h :
  first_rejection h = None <-> forall j e, Task j (Ended (Rejected e)) ∉ h.
Proof.
  induction h as [|ev h IH]; cbn.
  - split; [|done]. intros _ j e Hin. by apply elem_of_nil in Hin.
  - split.
    + intros H j e Hin. destruct (first_rejection h) eqn:E; [done|].
      apply elem_of_cons in Hin as [Heq|Hin].
      * subst ev. done.
      * by apply (proj1 IH eq_refl j e).
    + intros Hno.
      assert (first_rejection h = None) as ->.
      { apply IH. intros j e Hin. apply (Hno j e). by right. }
      destruct ev as [j [| | |[v|e]|]|]; try done.
      exfalso. apply (Hno j e). left.
Qed.

(** ** The serial discipline *)

Section Serial.

Variable tasks : list task.

Lemma arrive_not_started t : arrive t <> Started.
Proof. by destruct t. Qed.

(** What holds once the arrival of task [i] at [t] is recorded. *)
Lemma entering_arrive i t todo h :
  entering tasks i t todo h ->
  let h' := Task i (arrive t) :: h in
  in_sequence h'
  /\ (forall j te, Task j te ∈ h' -> j <= i)
  /\ starts h' = seq 0 (S i)
  /\ (forall j t0, tasks !! j = Some t0 -> j <= i ->
        exists t', solo t0 t' (of_task j h'))
  /\ (exists t0, tasks !! i = Some t0 /\ solo t0 t (of_task i h'))
  /\ (forall j e, Task j (Ended (Rejected e)) ∈ h' ->
        j = i /\ t = Ret (Rejected e)).
Proof.
  intros [Hseq Hbound Hclean Hstarts Htodo Hdone Hcur] h'. subst h'.
  split_and!.
  - cbn. split; [|done].
    pose proof (arrive_not_started t). by destruct (arrive t).
  - intros j te [Heq|Hin]%elem_of_cons; [by simplify_eq|by eapply Hbound].
  - rewrite starts_cons, Hstarts.
    pose proof (arrive_not_started t). destruct (arrive t); by rewrite ?app_nil_r.
  - intros j t0 Hj Hle. destruct (decide (j = i)) as [->|Hne].
    + rewrite of_task_cons_same. destruct Hcur as (t0' & Ht0 & Hsolo).
      simplify_eq. by exists t.
    + rewrite of_task_cons_other by done. apply Hdone; [done|lia].
  - rewrite of_task_cons_same. done.
  - intros j e [Heq|Hin]%elem_of_cons; [|by apply Hclean in Hin].
    destruct t; by simplify_eq.
Qed.

Lemma drop_S_cons i (t : task) rest :
  t :: rest = drop i tasks -> tasks !! i = Some t /\ rest = drop (S i) tasks.
Proof.
  intros H. split.
  - rewrite <- (Nat.add_0_r i), <- lookup_drop, <- H. done.
  - replace (S i) with (i + 1) by lia. rewrite <- drop_drop, <- H. done.
Qed.

Lemma serial_enter_inv todo : forall i t h,
  entering tasks i t todo h -> serial_inv tasks (serial_enter i t todo h).
Proof.
  induction todo as [|t' rest IH]; intros i t h He;
    pose proof (entering_arrive i t _ h He) as (Aseq & Abound & Astarts & Asolo & Acur & Arej);
    pose proof (e_todo _ _ _ _ _ He) as Htodo.
  - (* the last task of the list *)
    destruct t as [[v|e]| | | |]; cbn [serial_enter arrive] in *;
      (split; cbn [s_history s_index s_current s_todo s_result];
       [done|done| |done| |done|done| | |]).
    all: try (intros j e' Hin; destruct (Arej j e' Hin) as [-> Ht]; by simplify_eq).
    all: try (intros t1 Ht1; by simplify_eq).
    all: try (destruct Acur as (t0 & Ht0 & _); by apply lookup_lt_Some in Ht0).
    all: try done.
    intros v' _. split.
    + destruct Acur as (t0 & Ht0 & _). apply lookup_lt_Some in Ht0.
      symmetry in Htodo. apply drop_nil_inv in Htodo. lia.
    + exists v. left.
  - destruct t as [[v|e]| | | |]; cbn [serial_enter arrive] in *.
    2-6: (split; cbn [s_history s_index s_current s_todo s_result];
          [done|done| |done| |done|done| | |]).
    all: try (intros j e' Hin; destruct (Arej j e' Hin) as [-> Ht]; by simplify_eq).
    all: try (intros t1 Ht1; by simplify_eq).
    all: try (destruct Acur as (t0 & Ht0 & _); by apply lookup_lt_Some in Ht0).
    all: try done.
    (* the task is fulfilled: the loop calls the next one *)
    apply IH. apply drop_S_cons in Htodo as [Hnext Hrest].
    split.
    + cbn. split; [|done]. exists v. left.
    + intros j te [Heq|Hin]%elem_of_cons; [simplify_eq; lia|].
      apply Abound in Hin. lia.
    + intros j e [Heq|Hin]%elem_of_cons; [done|].
      destruct (Arej j e Hin) as [_ Ht]. done.
    + rewrite starts_cons, Astarts. by rewrite <- seq_S.
    + done.
    + intros j t0 Hj Hlt. rewrite of_task_cons_other by lia.
      apply Asolo; [done|lia].
    + exists t'. split; [done|].
      rewrite of_task_cons_same, of_task_unseen; [constructor|].
      intros te Hin. apply Abound in Hin. lia.
Qed.

Lemma wait_serial_inv :
  tasks <> [] -> serial_inv tasks (wait_serial tasks).
Proof.
  destruct tasks as [|t rest] eqn:E; [done|]. intros _. cbn [wait_serial].
  rewrite <- E. apply serial_enter_inv. subst tasks. split.
  - cbn. done.
  - intros j te [Heq|Hin]%elem_of_cons; [by simplify_eq|].
    by apply elem_of_nil in Hin.
  - intros j e [Heq|Hin]%elem_of_cons; [done|]. by apply elem_of_nil in Hin.
  - reflexivity.
  - reflexivity.
  - intros j t0 _ Hlt. lia.
  - exists t. split; [done|]. rewrite of_task_cons_same. constructor.
Qed.

Lemma serial_deliver_inv st i r :
  serial_inv tasks st -> serial_inv tasks (serial_deliver st i r).
Proof.
  intros Hinv. unfold serial_deliver.
  destruct (s_current st) as [t|] eqn:Hcur; [|done].
  destruct (Nat.eqb_spec i (s_index st)) as [->|Hne]; [|done].
  destruct (resume t r) as [t'|] eqn:Hres; [|done].
  destruct Hinv as [Hseq Hbound Hrej Hstarts Hrange Htodo Hsolo Hc Hidle Hful].
  destruct (Hc t Hcur) as (Hpending & t0 & Ht0 & Hrun).
  apply serial_enter_inv. split.
  - cbn. split; [done|exact Hseq].
  - intros j te [Heq|Hin]%elem_of_cons; [by simplify_eq|by eapply Hbound].
  - intros j e [Heq|Hin]%elem_of_cons; [done|].
    destruct (Hrej j e Hin) as (_ & _ & Hnone). congruence.
  - by rewrite starts_cons, app_nil_r.
  - done.
  - intros j t1 Hj Hlt. rewrite of_task_cons_other by lia.
    apply Hsolo; [done|lia].
  - exists t0. split; [done|]. rewrite of_task_cons_same.
    by eapply solo_answered.
Qed.

Lemma serial_answers_inv schedule : forall st,
  serial_inv tasks st -> serial_inv tasks (serial_answers st schedule).
Proof.
  induction schedule as [|[i r] schedule IH]; intros st Hinv; [done|].
  cbn. apply IH. by apply serial_deliver_inv.
Qed.

(** Once the loop is over nothing moves any more. *)
Lemma serial_answers_idle schedule : forall st,
  s_current st = None -> serial_answers st schedule = st.
Proof.
  induction schedule as [|[i r] schedule IH]; intros st Hnone; [done|].
  cbn. unfold serial_deliver. rewrite Hnone. by apply IH.
Qed.

Lemma serial_fulfilled_all st :
  serial_inv tasks st ->
  forall j, j <= s_index st ->
  (exists v, Task (s_index st) (Ended (Fulfilled v)) ∈ s_history st) ->
  exists v, Task j (Ended (Fulfilled v)) ∈ s_history st.
Proof.
  intros Hinv j Hle Hlast.
  destruct (decide (j = s_index st)) as [->|Hne]; [done|].
  assert (Hcalled : Task (S j) Started ∈ s_history st).
  { apply elem_of_starts. rewrite (i_starts _ _ Hinv).
    apply list_elem_of_In, in_seq. lia. }
  apply list_elem_of_split in Hcalled as (newer & older & Hsplit).
  destruct (in_sequence_split _ (i_seq _ _ Hinv) _ _ _ Hsplit) as (v & Hv).
  exists v. rewrite Hsplit. apply elem_of_app. right. by right.
Qed.

(** The loop never stops by itself: while [wait] is pending, the task
    called last is waiting for an answer, and an answer that fits resumes
    it. *)
Lemma serial_pending_waits st :
  serial_inv tasks st ->
  s_result st = Pending ->
  exists t, s_current st = Some t
            /\ forall r t', resume t r = Some t' ->
                 Task (s_index st) (Answered r)
                 ∈ s_history (serial_deliver st (s_index st) r).
Proof.
  intros Hinv Hpending.
  destruct (s_current st) as [t|] eqn:Hcur.
  - exists t. split; [done|]. intros r t' Hres.
    unfold serial_deliver. rewrite Hcur, Nat.eqb_refl, Hres.
    clear. generalize (s_index st) as i, (s_history st) as h, (s_todo st) as todo.
    intros i h todo. revert i t' h.
    assert (Hgrow : forall todo i t' h ev,
              ev ∈ h -> ev ∈ s_history (serial_enter i t' todo h)).
    { clear. induction todo as [|t'' rest IH]; intros i t' h ev Hin;
        destruct t' as [[v|e]| | | |]; cbn [serial_enter s_history];
        try (by right).
      apply IH. by do 2 right. }
    intros i t' h. apply Hgrow. left.
  - by destruct (i_idle _ _ Hinv Hcur).
Qed.

End Serial.

Lemma answers_serial proc tasks schedule :
  serial proc = true ->
  answers (wait proc tasks) schedule
  = {| rt_process := proc;
       rt_coord := Serially (serial_answers (wait_serial tasks) schedule) |}.
Proof.
  intros Hserial. unfold wait. rewrite Hserial.
  generalize (wait_serial tasks) as st.
  induction schedule as [|a schedule IH]; intros st; [done|].
  cbn. apply IH.
Qed.

(** C2.  In serial mode the tasks are called in the order of the list, each
    position running the task of the list at that position; a task is
    called only after the one before it was fulfilled; and once a task has
    failed, [wait] is rejected with the error of that task, no task after it
    has been called, and none will be. *)
Theorem serial_coordination (proc : process) (tasks : list task)
    (schedule : list (nat * response)) :
  serial proc = true ->
  let rt := answers (wait proc tasks) schedule in
  (exists n, n <= length tasks /\ starts (history rt) = seq 0 n)
  /\ (forall i t0, tasks !! i = Some t0 -> i ∈ starts (history rt) ->
        exists t, solo t0 t (of_task i (history rt)))
  /\ (forall newer older j,
        history rt = newer ++ Task (S j) Started :: older ->
        exists v, Task j (Ended (Fulfilled v)) ∈ older)
  /\ (forall k e,
        Task k (Ended (Rejected e)) ∈ history rt ->
        result rt = Settled (Rejected e)
        /\ (forall j te, k < j -> Task j te ∉ history rt)
        /\ forall more, answers (wait proc tasks) (schedule ++ more) = rt)
  /\ (forall v,
        result rt = Settled (Fulfilled v) ->
        forall i, i < length tasks ->
        exists v', Task i (Ended (Fulfilled v')) ∈ history rt).
Proof.
  intros Hserial rt. subst rt.
  rewrite answers_serial by done. unfold history, result. cbn [rt_coord].
  destruct (decide (tasks = [])) as [->|Hne].
  { rewrite serial_answers_idle by done. cbn. split_and!.
    - exists 0. done.
    - intros i t0 Hi. done.
    - intros newer older j H. by destruct newer.
    - intros k e Hin. by apply elem_of_nil in Hin.
    - intros v _ i Hi. lia. }
  pose proof (serial_answers_inv tasks schedule _ (wait_serial_inv tasks Hne)) as Hinv.
  set (st := serial_answers (wait_serial tasks) schedule) in *.
  split_and!.
  - exists (S (s_index st)). split; [apply (i_range _ _ Hinv)|apply (i_starts _ _ Hinv)].
  - intros i t0 Hi Hcalled. apply (i_solo _ _ Hinv); [done|].
    rewrite (i_starts _ _ Hinv) in Hcalled.
    apply list_elem_of_In, in_seq in Hcalled. lia.
  - intros newer older j Hsplit. by eapply in_sequence_split, Hsplit; apply Hinv.
  - intros k e Hin. destruct (i_reject _ _ Hinv k e Hin) as (-> & Hres & Hnone).
    split_and!; [done| |].
    + intros j te Hlt Hj. apply (i_bound _ _ Hinv) in Hj. lia.
    + intros more. rewrite answers_serial by done. f_equal. f_equal.
      unfold serial_answers. rewrite fold_left_app.
      by apply serial_answers_idle.
  - intros v Hres i Hi. destruct (i_fulfilled _ _ Hinv v Hres) as (Hlast & Hv).
    apply (serial_fulfilled_all tasks); [done|lia|done].
Qed.

(** ** Promise.all as a fold of reactions *)

Lemma notified_snoc n notes j s :
  notified n (notes ++ [(j, s)]) = notify j s (notified n notes).
Proof. unfold notified. by rewrite fold_left_app. Qed.

Lemma first_rejected_app l1 l2 :
  first_rejected (l1 ++ l2)
  = match first_rejected l1 with Some e => Some e | None => first_rejected l2 end.
Proof. induction l1 as [|[j [v|e]] l1 IH]; cbn; done. Qed.

Lemma fulfilments_app l1 l2 :
  fulfilments (l1 ++ l2) = fulfilments l1 + fulfilments l2.
Proof. induction l1 as [|[j [v|e]] l1 IH]; cbn; lia. Qed.

Lemma fulfilments_length notes : fulfilments notes <= length notes.
Proof. induction notes as [|[j [v|e]] l IH]; cbn; lia. Qed.

Lemma fulfilments_rejected notes :
  first_rejected notes <> None -> fulfilments notes < length notes.
Proof.
  induction notes as [|[j [v|e]] l IH]; cbn; [done| |].
  - intros H. apply IH in H. lia.
  - intros _. pose proof (fulfilments_length l). lia.
Qed.

Lemma notes_bounded n (notes : list (nat * settle)) :
  NoDup notes.*1 -> (forall j s, (j, s) ∈ notes -> j < n) -> length notes <= n.
Proof.
  intros Hnd Hlt. rewrite <- (length_fmap fst notes), <- (length_seq n 0).
  apply NoDup_incl_length.
  - by apply NoDup_ListNoDup.
  - intros j Hj. apply in_seq. apply list_elem_of_In in Hj.
    apply list_elem_of_fmap in Hj as ([j' s] & -> & Hin). cbn.
    apply Hlt in Hin. lia.
Qed.

Lemma notified_remaining n notes :
  remaining (notified n notes) = n - fulfilments notes.
Proof.
  induction notes as [|[j [v|e]] notes IH] using rev_ind; [cbn; lia| |];
    rewrite notified_snoc, fulfilments_app; cbn; lia.
Qed.

(** Without a rejection, the promise is fulfilled exactly when nothing
    remains. *)
Lemma notified_no_rejection n notes :
  first_rejected notes = None ->
  if Nat.eqb (n - fulfilments notes) 0
  then exists v, outcome (notified n notes) = Settled (Fulfilled v)
  else outcome (notified n notes) = Pending.
Proof.
  induction notes as [|[j [v|e]] notes IH] using rev_ind.
  - intros _. cbn. rewrite Nat.sub_0_r. destruct (Nat.eqb n 0); eauto.
  - rewrite first_rejected_app. intros H.
    destruct (first_rejected notes); [done|]. specialize (IH eq_refl).
    rewrite notified_snoc, fulfilments_app. cbn.
    rewrite notified_remaining.
    replace (n - (fulfilments notes + 1)) with (pred (n - fulfilments notes)) by lia.
    destruct (Nat.eqb_spec (pred (n - fulfilments notes)) 0) as [Hz|Hnz].
    + destruct (Nat.eqb (n - fulfilments notes) 0).
      * destruct IH as [v0 ->]. eauto.
      * rewrite IH. eauto.
    + destruct (Nat.eqb_spec (n - fulfilments notes) 0); [lia|done].
  - rewrite first_rejected_app. intros H.
    destruct (first_rejected notes); done.
Qed.

(** The first rejection wins, whatever follows. *)
Lemma notified_rejection n notes e :
  length notes <= n ->
  first_rejected notes = Some e ->
  outcome (notified n notes) = Settled (Rejected e).
Proof.
  induction notes as [|[j s] notes IH] using rev_ind; [done|].
  rewrite length_app, first_rejected_app. cbn [length]. intros Hlen Hfirst.
  rewrite notified_snoc.
  destruct (first_rejected notes) as [e0|] eqn:Hbefore.
  - simplify_eq. rewrite <- (IH ltac:(lia) eq_refl).
    destruct s as [v|e']; cbn; rewrite (IH ltac:(lia) eq_refl); [|done].
    by destruct (Nat.eqb _ 0).
  - destruct s as [v|e']; [done|]. cbn in Hfirst. simplify_eq. cbn.
    pose proof (notified_no_rejection n notes Hbefore) as Hstate.
    pose proof (fulfilments_length notes).
    destruct (Nat.eqb_spec (n - fulfilments notes) 0); [lia|].
    by rewrite Hstate.
Qed.

(** ** Reading the settlements of a history *)

Lemma endings_cons ev h :
  endings (ev :: h)
  = endings h ++ match ev with Task i (Ended s) => [(i, s)] | _ => [] end.
Proof.
  unfold endings.
  destruct ev as [i [| | |s|]|]; rewrite ?app_nil_r; try reflexivity.
  exact (reverse_cons _ _).
Qed.

Lemma elem_of_endings i s h : (i, s) ∈ endings h <-> Task i (Ended s) ∈ h.
Proof.
  unfold endings. rewrite elem_of_reverse, list_elem_of_omap. split.
  - intros (ev & Hin & Hev). destruct ev as [j [| | | |]|]; by simplify_eq.
  - intros Hin. by exists (Task i (Ended s)).
Qed.

Lemma first_rejection_endings h : first_rejection h = first_rejected (endings h).
Proof.
  induction h as [|ev h IH]; [done|].
  rewrite endings_cons, first_rejected_app. cbn. rewrite IH.
  destruct (first_rejected (endings h)); [done|].
  by destruct ev as [i [| | |[v|e]|]|].
Qed.

Lemma endings_launch tasks : forall i h,
  endings (launch i tasks h) = endings h ++ settled_from i tasks.
Proof.
  induction tasks as [|t rest IH]; intros i h; cbn [launch settled_from].
  - by rewrite app_nil_r.
  - rewrite IH, !endings_cons, app_nil_r.
    destruct t; cbn [arrive]; by rewrite ?app_nil_r, <- ?app_assoc.
Qed.

Lemma elem_of_settled_from tasks : forall i k s,
  (k, s) ∈ settled_from i tasks ->
  i <= k /\ tasks !! (k - i) = Some (Ret s).
Proof.
  induction tasks as [|t rest IH]; intros i k s Hin; cbn in Hin.
  - by apply elem_of_nil in Hin.
  - assert (Hrest : (k, s) ∈ settled_from (S i) rest ->
                    i <= k /\ (t :: rest) !! (k - i) = Some (Ret s)).
    { intros H. apply IH in H as [Hle Hk]. split; [lia|].
      replace (k - i) with (S (k - S i)) by lia. done. }
    destruct t as [s0| | | |]; try by apply Hrest.
    apply elem_of_cons in Hin as [Heq|Hin]; [|by apply Hrest].
    simplify_eq. split; [lia|]. by rewrite Nat.sub_diag.
Qed.

Lemma settled_from_NoDup tasks : forall i, NoDup (settled_from i tasks).*1.
Proof.
  induction tasks as [|t rest IH]; intros i; cbn; [constructor|].
  destruct t as [s0| | | |]; try apply IH.
  cbn. constructor; [|apply IH].
  intros Hin. apply list_elem_of_fmap in Hin as ([k s] & Hk & Hin). cbn in Hk. subst k.
  apply elem_of_settled_from in Hin as [Hle _]. lia.
Qed.

Lemma launch_started tasks : forall i h k,
  Task k Started ∈ launch i tasks h
  <-> Task k Started ∈ h \/ (i <= k < i + length tasks).
Proof.
  induction tasks as [|t rest IH]; intros i h k; cbn.
  - split; [tauto|]. intros [H|H]; [done|lia].
  - rewrite IH, !elem_of_cons. split.
    + intros [[Heq|[Heq|Hin]]|Hr].
      * pose proof (arrive_not_started t). by simplify_eq.
      * simplify_eq. right. lia.
      * by left.
      * right. lia.
    + intros [Hin|Hr]; [tauto|].
      destruct (decide (k = i)) as [->|Hne]; [tauto|]. right. lia.
Qed.

Lemma of_task_launch tasks : forall i h k t0,
  tasks !! (k - i) = Some t0 -> i <= k ->
  (forall te, Task k te ∉ h) ->
  of_task k (launch i tasks h) = [arrive t0; Started].
Proof.
  induction tasks as [|t rest IH]; intros i h k t0 Hk Hle Hno; [done|].
  cbn [launch]. destruct (decide (k = i)) as [->|Hne].
  - rewrite Nat.sub_diag in Hk. cbn in Hk. simplify_eq.
    clear IH. revert Hno.
    assert (Hgen : forall rest j h', i < j ->
              of_task i (launch j rest h') = of_task i h').
    { clear. induction rest as [|t rest IH]; intros j h' Hlt; [done|].
      cbn [launch]. rewrite IH by lia. by rewrite !of_task_cons_other by lia. }
    intros Hno. rewrite Hgen by lia.
    rewrite !of_task_cons_same, of_task_unseen; done.
  - apply (IH (S i)); [|lia|].
    + replace (k - i) with (S (k - S i)) in Hk by lia. done.
    + intros te [Heq|[Heq|Hin]%elem_of_cons]%elem_of_cons; [by simplify_eq..|].
      by apply (Hno te).
Qed.

(** ** The parallel discipline *)

Lemma of_task_cons_await i h : of_task i (AwaitAll :: h) = of_task i h.
Proof. reflexivity. Qed.

Lemma resume_not_settled t r t' : resume t r = Some t' -> forall s, t <> Ret s.
Proof. intros H s ->. done. Qed.

Lemma subscribe_promises slots : forall ts j a,
  ts = drop j slots ->
  subscribe slots j (map VPromise (seq j (length ts))) a
  = fold_left (fun a note => notify note.1 note.2 a) (settled_from j ts) a.
Proof.
  induction ts as [|t rest IH]; intros j a Hdrop; [done|].
  apply drop_S_cons in Hdrop as [Hj Hrest].
  cbn [length seq map subscribe settled_from]. rewrite Hj.
  rewrite IH by done. by destruct t.
Qed.

Lemma announce_promises i s : forall m j a,
  announce i s j (map VPromise (seq j m)) a
  = if decide (j <= i < j + m) then notify i s a else a.
Proof.
  induction m as [|m IH]; intros j a; cbn [seq map announce].
  - case_decide; [lia|done].
  - rewrite IH. destruct (Nat.eqb_spec j i) as [->|Hne].
    + rewrite decide_False by lia. by rewrite decide_True by lia.
    + destruct (decide (S j <= i < S j + m)).
      * by rewrite decide_True by lia.
      * by rewrite decide_False by lia.
Qed.

Section Parallel.

Variable tasks : list task.

Lemma wait_parallel_inv : pool_inv tasks (wait_parallel tasks).
Proof.
  unfold wait_parallel, pool_of. split; cbn [slots inputs agg p_history].
  - done.
  - done.
  - exists []. split; [done|]. intros i Hin. by apply elem_of_nil in Hin.
  - intros i t0 Hi. exists t0. split; [done|].
    rewrite of_task_cons_await, (of_task_launch tasks 0 [] i t0).
    + constructor.
    + by rewrite Nat.sub_0_r.
    + lia.
    + intros te Hin. by apply elem_of_nil in Hin.
  - unfold promise_all. rewrite length_map, length_seq.
    rewrite subscribe_promises by done.
    rewrite endings_cons, app_nil_r, endings_launch. done.
  - intros i s. rewrite endings_cons, app_nil_r, endings_launch. cbn.
    intros Hin. apply elem_of_settled_from in Hin as [_ Hin].
    by rewrite Nat.sub_0_r in Hin.
  - rewrite endings_cons, app_nil_r, endings_launch. cbn.
    apply settled_from_NoDup.
Qed.

Lemma pool_deliver_inv p i r :
  pool_inv tasks p -> pool_inv tasks (pool_deliver p i r).
Proof.
  intros Hinv. unfold pool_deliver.
  destruct (slots p !! i) as [t|] eqn:Hslot; [|done].
  destruct (resume t r) as [t'|] eqn:Hres; [|done].
  destruct Hinv as [Hlen Hinputs (after & Hhist & Hafter) Hsolo Hagg Hend Hnd].
  pose proof (lookup_lt_Some _ _ _ Hslot) as Hlt.
  assert (Hfresh : forall s, (i, s) ∉ endings (p_history p)).
  { intros s Hin. apply Hend in Hin. rewrite Hslot in Hin.
    by simplify_eq. }
  assert (Hnew : endings (Task i (arrive t') :: Task i (Answered r) :: p_history p)
                 = endings (p_history p)
                   ++ match t' with Ret s => [(i, s)] | _ => [] end).
  { rewrite !endings_cons, app_nil_r. by destruct t'. }
  split; cbn [slots inputs agg p_history].
  - by rewrite length_insert.
  - done.
  - exists (Task i (arrive t') :: Task i (Answered r) :: after).
    split; [by rewrite Hhist|].
    intros k [Heq|[Heq|Hin]%elem_of_cons]%elem_of_cons.
    + pose proof (arrive_not_started t'). by simplify_eq.
    + done.
    + by apply (Hafter k).
  - intros k t0 Hk. destruct (Hsolo k t0 Hk) as (tk & Htk & Hrun).
    destruct (decide (k = i)) as [->|Hne].
    + exists t'. rewrite list_lookup_insert_eq by done. split; [done|].
      rewrite !of_task_cons_same. simplify_eq. by eapply solo_answered.
    + exists tk. rewrite list_lookup_insert_ne by done. split; [done|].
      by rewrite !of_task_cons_other by done.
  - rewrite Hnew. destruct t' as [s| | | |]; rewrite ?app_nil_r; try done.
    rewrite notified_snoc, <- Hagg, Hinputs, announce_promises.
    rewrite decide_True by lia. done.
  - rewrite Hnew. intros k s [Hin|Hin]%elem_of_app.
    + destruct (decide (k = i)) as [->|Hne]; [by apply Hfresh in Hin|].
      rewrite list_lookup_insert_ne by done. by apply Hend.
    + destruct t' as [s'| | | |]; try by apply elem_of_nil in Hin.
      apply list_elem_of_singleton in Hin. simplify_eq.
      by rewrite list_lookup_insert_eq.
  - rewrite Hnew, fmap_app. apply NoDup_app. split_and!; [done| |].
    + intros k Hk Hk'. destruct t' as [s'| | | |]; try by apply elem_of_nil in Hk'.
      apply list_elem_of_singleton in Hk'. cbn in Hk'. subst k.
      apply list_elem_of_fmap in Hk as ([k s] & -> & Hin). by apply Hfresh in Hin.
    + destruct t'; cbn; try constructor; [|constructor].
      intros Hin. by apply elem_of_nil in Hin.
Qed.

Lemma pool_answers_inv schedule : forall p,
  pool_inv tasks p -> pool_inv tasks (pool_answers p schedule).
Proof.
  induction schedule as [|[i r] schedule IH]; intros p Hinv; [done|].
  cbn. apply IH. by apply pool_deliver_inv.
Qed.

End Parallel.

Lemma answers_parallel proc tasks schedule :
  serial proc = false ->
  answers (wait proc tasks) schedule
  = {| rt_process := proc;
       rt_coord := Jointly (pool_answers (wait_parallel tasks) schedule) |}.
Proof.
  intros Hserial. unfold wait. rewrite Hserial.
  generalize (wait_parallel tasks) as p.
  induction schedule as [|a schedule IH]; intros p; [done|].
  cbn. apply IH.
Qed.

Lemma first_rejection_app newer older :
  first_rejection (newer ++ older)
  = match first_rejection older with
    | Some e => Some e
    | None => first_rejection newer
    end.
Proof.
  induction newer as [|ev newer IH]; cbn.
  - by destruct (first_rejection older).
  - rewrite IH. by destruct (first_rejection older).
Qed.

Lemma pool_deliver_history p i r :
  exists newer, p_history (pool_deliver p i r) = newer ++ p_history p.
Proof.
  unfold pool_deliver. destruct (slots p !! i) as [t|]; [|by exists []].
  destruct (resume t r) as [t'|]; [|by exists []].
  by exists [Task i (arrive t'); Task i (Answered r)].
Qed.

Lemma pool_answers_history schedule : forall p,
  exists newer, p_history (pool_answers p schedule) = newer ++ p_history p.
Proof.
  induction schedule as [|[i r] schedule IH]; intros p; [by exists []|].
  change (pool_answers p ((i, r) :: schedule))
    with (pool_answers (pool_deliver p i r) schedule).
  destruct (IH (pool_deliver p i r)) as (newer & ->).
  destruct (pool_deliver_history p i r) as (newer' & ->).
  exists (newer ++ newer'). by rewrite app_assoc.
Qed.

Lemma pool_answers_app p s1 s2 :
  pool_answers p (s1 ++ s2) = pool_answers (pool_answers p s1) s2.
Proof. unfold pool_answers. by rewrite fold_left_app. Qed.

Lemma no_rejection_fulfilled notes :
  first_rejected notes = None ->
  fulfilments notes = length notes
  /\ forall j s, (j, s) ∈ notes -> exists v, s = Fulfilled v.
Proof.
  induction notes as [|[j [v|e]] notes IH]; cbn; [|intros H|done].
  - split; [done|]. intros j s Hin. by apply elem_of_nil in Hin.
  - destruct (IH H) as [Hlen Hall]. split; [lia|].
    intros k s [Heq|Hin]%elem_of_cons; [simplify_eq; eauto|by eapply Hall].
Qed.

Section ParallelOutcome.

Variables (tasks : list task) (p : pool).
Hypothesis Hinv : pool_inv tasks p.

Lemma endings_bounded : length (endings (p_history p)) <= length tasks.
Proof.
  apply notes_bounded; [apply Hinv|].
  intros j s Hin. apply (q_endings _ _ Hinv) in Hin.
  apply lookup_lt_Some in Hin. by rewrite (q_slots _ _ Hinv) in Hin.
Qed.

(** The state of the promise of [Promise.all], read off the history. *)
Lemma pool_outcome :
  match first_rejection (p_history p) with
  | Some e => outcome (agg p) = Settled (Rejected e)
  | None =>
      if Nat.eqb (length tasks - length (endings (p_history p))) 0
      then exists v, outcome (agg p) = Settled (Fulfilled v)
      else outcome (agg p) = Pending
  end.
Proof.
  rewrite (q_agg _ _ Hinv), first_rejection_endings.
  destruct (first_rejected (endings (p_history p))) as [e|] eqn:Hfirst.
  - apply notified_rejection; [apply endings_bounded|done].
  - rewrite <- (proj1 (no_rejection_fulfilled _ Hfirst)).
    by apply notified_no_rejection.
Qed.

Lemma endings_cover :
  length tasks <= length (endings (p_history p)) ->
  forall i, i < length tasks -> exists s, (i, s) ∈ endings (p_history p).
Proof.
  intros Hlen i Hi.
  assert (Hincl : incl (seq 0 (length tasks)) (endings (p_history p)).*1).
  { apply NoDup_length_incl.
    - apply NoDup_ListNoDup, Hinv.
    - by rewrite length_seq, length_fmap.
    - intros j Hj. apply in_seq. apply list_elem_of_In in Hj.
      apply list_elem_of_fmap in Hj as ([j' s] & -> & Hin). cbn.
      apply (q_endings _ _ Hinv) in Hin. apply lookup_lt_Some in Hin.
      rewrite (q_slots _ _ Hinv) in Hin. lia. }
  assert (Hin : In i (endings (p_history p)).*1) by (apply Hincl, in_seq; lia).
  apply list_elem_of_In, list_elem_of_fmap in Hin as ([j s] & Hj & Hin).
  cbn in Hj. subst j. by exists s.
Qed.

Lemma pool_fulfilled_all v :
  outcome (agg p) = Settled (Fulfilled v) ->
  forall i, i < length tasks ->
  exists v', Task i (Ended (Fulfilled v')) ∈ p_history p.
Proof.
  intros Hout i Hi. pose proof pool_outcome as Hstate.
  destruct (first_rejection (p_history p)) eqn:Hfirst; [congruence|].
  destruct (Nat.eqb_spec (length tasks - length (endings (p_history p))) 0);
    [|congruence].
  destruct (endings_cover ltac:(lia) i Hi) as (s & Hin).
  rewrite first_rejection_endings in Hfirst.
  destruct (proj2 (no_rejection_fulfilled _ Hfirst) i s Hin) as (v' & ->).
  exists v'. by apply elem_of_endings.
Qed.

Lemma pool_all_fulfilled :
  (forall i, i < length tasks ->
     exists v', Task i (Ended (Fulfilled v')) ∈ p_history p) ->
  exists v, outcome (agg p) = Settled (Fulfilled v).
Proof.
  intros Hall. pose proof pool_outcome as Hstate.
  destruct (first_rejection (p_history p)) as [e|] eqn:Hfirst.
  - exfalso. assert (Hsome : first_rejection (p_history p) <> None) by congruence.
    rewrite first_rejection_none in Hsome.
    apply Hsome. intros j e' Hin.
    apply elem_of_endings in Hin. pose proof (q_endings _ _ Hinv _ _ Hin) as Hj.
    destruct (Hall j) as (v' & Hv').
    { apply lookup_lt_Some in Hj. by rewrite (q_slots _ _ Hinv) in Hj. }
    apply elem_of_endings, (q_endings _ _ Hinv) in Hv'. congruence.
  - assert (Hlen : length tasks <= length (endings (p_history p))).
    { rewrite <- (length_seq (length tasks) 0), <- (length_fmap fst (endings _)).
      apply NoDup_incl_length; [apply seq_NoDup|].
      intros i Hi. apply in_seq in Hi. destruct (Hall i) as (v' & Hv'); [lia|].
      apply list_elem_of_In, list_elem_of_fmap.
      exists (i, Fulfilled v'). split; [done|]. by apply elem_of_endings. }
    destruct (Nat.eqb_spec (length tasks - length (endings (p_history p))) 0);
      [done|lia].
Qed.

End ParallelOutcome.

(** C3.  In parallel mode every task is called before [Promise.all] waits
    for any of them; [wait] is fulfilled only when every task has been
    fulfilled, and it is then; when a task fails, [wait] is rejected with
    the first rejection to surface; after that the other tasks still go on
    when they are answered, and nothing they do changes the result. *)
Theorem parallel_coordination (proc : process) (tasks : list task)
    (schedule : list (nat * response)) :
  serial proc = false ->
  let rt := answers (wait proc tasks) schedule in
  (exists after,
      history rt = after ++ AwaitAll :: launch 0 tasks []
      /\ (forall i, Task i Started ∉ after)
      /\ (forall i, i < length tasks -> Task i Started ∈ launch 0 tasks []))
  /\ (forall v, result rt = Settled (Fulfilled v) ->
        forall i, i < length tasks ->
        exists v', Task i (Ended (Fulfilled v')) ∈ history rt)
  /\ ((forall i, i < length tasks ->
         exists v', Task i (Ended (Fulfilled v')) ∈ history rt) ->
      result rt = Settled (Fulfilled VUndefined))
  /\ (forall i e,
        Task i (Ended (Rejected e)) ∈ history rt ->
        exists e1, first_rejection (history rt) = Some e1
                   /\ result rt = Settled (Rejected e1))
  /\ (forall e,
        result rt = Settled (Rejected e) ->
        forall more,
          result (answers (wait proc tasks) (schedule ++ more))
          = Settled (Rejected e))
  /\ (forall i t r t',
        slot rt i = Some t -> resume t r = Some t' ->
        slot (deliver rt (i, r)) i = Some t'
        /\ Task i (arrive t') ∈ history (deliver rt (i, r))).
Proof.
  intros Hserial rt. subst rt.
  rewrite answers_parallel by done. unfold history, result, slot. cbn [rt_coord].
  pose proof (pool_answers_inv tasks schedule _ (wait_parallel_inv tasks)) as Hinv.
  set (p := pool_answers (wait_parallel tasks) schedule) in *.
  pose proof (pool_outcome tasks p Hinv) as Hstate.
  split_and!.
  - destruct (q_history _ _ Hinv) as (after & Hhist & Hafter).
    exists after. split_and!; [done..|].
    intros i Hi. apply launch_started. right. lia.
  - intros v Hres i Hi.
    destruct (outcome (agg p)) as [|[v0|e0]] eqn:Hout; try done.
    by eapply pool_fulfilled_all.
  - intros Hall. by destruct (pool_all_fulfilled tasks p Hinv Hall) as (v & ->).
  - intros i e Hin.
    destruct (first_rejection (p_history p)) as [e1|] eqn:Hfirst.
    + exists e1. by rewrite Hstate.
    + exfalso. by eapply first_rejection_none in Hfirst.
  - intros e Hres more.
    assert (Hfirst : first_rejection (p_history p) = Some e).
    { destruct (first_rejection (p_history p)) as [e1|].
      - rewrite Hstate in Hres. by simplify_eq.
      - destruct (Nat.eqb _ 0).
        + destruct Hstate as (v & Hv). by rewrite Hv in Hres.
        + by rewrite Hstate in Hres. }
    rewrite answers_parallel by done. cbn [rt_coord].
    rewrite pool_answers_app. fold p.
    pose proof (pool_answers_inv tasks more p Hinv) as Hinv'.
    pose proof (pool_outcome tasks _ Hinv') as Hstate'.
    destruct (pool_answers_history more p) as (newer & Hgrow).
    rewrite Hgrow, first_rejection_app, Hfirst in Hstate'.
    by rewrite Hstate'.
  - intros i t r t' Hslot Hres. unfold deliver. cbn [rt_coord rt_process fst snd].
    unfold pool_deliver. rewrite Hslot, Hres. cbn [slots p_history].
    split; [|left].
    apply list_lookup_insert_eq. by eapply lookup_lt_Some.
Qed.

(** ** The nerdctl stub *)

Lemma buildNerdctlStub_unfold proc os :
  os = "windows" \/ os = "linux" ->
  buildNerdctlStub proc os = Child (stub_build proc os) (stub_built proc os).
Proof. intros [->| ->]; reflexivity. Qed.

Lemma spawn_promise_settled r : spawn_promise r <> Pending.
Proof.
  destruct r as [code|signal|errno err].
  - rewrite spawn_promise_exited. by case_bool_decide.
  - rewrite spawn_promise_killed. by destruct (_ || _).
  - done.
Qed.

Lemma stub_solo proc os t h :
  os = "windows" \/ os = "linux" ->
  solo (buildNerdctlStub proc os) t h -> stub_state proc os t h.
Proof.
  intros Hos. rewrite (buildNerdctlStub_unfold proc os Hos).
  induction 1 as [|t h r t' Hrun Hstate Hres]; [constructor|].
  destruct Hstate as [|run|run v s Hok].
  - destruct r as [s|run|err hasErrors details]; simplify_eq/=. constructor.
  - unfold stub_built in Hres |- *.
    destruct (spawn_promise run) as [|[v|e]] eqn:Hrun'; [done| |done].
    destruct r as [s|run'|err hasErrors details]; simplify_eq/=.
    by econstructor.
  - by destruct s.
Qed.

(** What the histories of a stub build have in common. *)
Lemma stub_state_order proc os t h :
  stub_state proc os t h ->
  (forall newer older,
     h = newer ++ Began (WPromise (stub_copy proc os)) :: older ->
     Began (WChild (stub_build proc os)) ∈ older
     /\ exists r v, Answered (ChildGone r) ∈ older
                    /\ spawn_promise r = Settled (Fulfilled v))
  /\ (forall r e,
        Answered (ChildGone r) ∈ h ->
        spawn_promise r = Settled (Rejected e) ->
        Ended (Rejected e) ∈ h
        /\ forall op, Began (WPromise op) ∉ h).
Proof.
  intros Hstate. destruct Hstate as [|run|run v s Hok].
  - split.
    + intros newer older Hsplit.
      repeat (destruct newer as [|? newer]; simplify_eq/=).
    + intros r e Hin. set_solver.
  - split.
    + intros newer older Hsplit. unfold stub_built in Hsplit.
      destruct (spawn_promise run) as [|[v|e]] eqn:Hrun;
        repeat (destruct newer as [|? newer]; simplify_eq/=).
      split; [set_solver|]. exists run, v. split; [set_solver|done].
    + intros r e Hin Hrej.
      assert (r = run) as ->.
      { unfold stub_built in Hin. destruct (spawn_promise run) as [|[]]; set_solver. }
      unfold stub_built. rewrite Hrej. cbn. split; [set_solver|].
      intros op Hop. set_solver.
  - split.
    + intros newer older Hsplit.
      destruct s; repeat (destruct newer as [|? newer]; simplify_eq/=).
      all: split; [set_solver|]; exists run, v; split; [set_solver|done].
    + intros r e Hin Hrej.
      assert (r = run) as -> by (destruct s; set_solver).
      congruence.
Qed.

(** Whatever the discipline, what happens to one task under [wait] is a
    history of that task alone. *)
Lemma task_projection proc tasks schedule i t0 :
  tasks !! i = Some t0 ->
  let h := of_task i (history (answers (wait proc tasks) schedule)) in
  h = [] \/ exists t, solo t0 t h.
Proof.
  intros Hi h. subst h. destruct (serial proc) eqn:Hserial.
  - rewrite answers_serial by done. unfold history. cbn [rt_coord].
    assert (Hne : tasks <> []) by (intros ->; done).
    pose proof (serial_answers_inv tasks schedule _ (wait_serial_inv tasks Hne)) as Hinv.
    set (st := serial_answers (wait_serial tasks) schedule) in *.
    destruct (decide (i <= s_index st)) as [Hle|Hgt].
    + right. by apply (i_solo _ _ Hinv).
    + left. apply of_task_unseen. intros te Hin.
      apply (i_bound _ _ Hinv) in Hin. lia.
  - rewrite answers_parallel by done. unfold history. cbn [rt_coord].
    pose proof (pool_answers_inv tasks schedule _ (wait_parallel_inv tasks)) as Hinv.
    right. destruct (q_solo _ _ Hinv i t0 Hi) as (t & _ & Hrun). by exists t.
Qed.

(** C6.  Under [wait], serial or parallel, the copy of a nerdctl stub is
    started only after the compiler of the same task is gone and the promise
    of its [spawn] is fulfilled, and it is started at that very moment; when
    that promise is rejected the task ends with the rejection and the copy
    is never started. *)
Theorem stub_copy_follows_build (proc : process) (os : string)
    (tasks : list task) (i : nat) (schedule : list (nat * response)) :
  os = "windows" \/ os = "linux" ->
  tasks !! i = Some (buildNerdctlStub proc os) ->
  let h := history (answers (wait proc tasks) schedule) in
  (forall newer older,
     h = newer ++ Task i (Began (WPromise (stub_copy proc os))) :: older ->
     Task i (Began (WChild (stub_build proc os))) ∈ older
     /\ exists r v, Task i (Answered (ChildGone r)) ∈ older
                    /\ spawn_promise r = Settled (Fulfilled v))
  /\ (forall r e,
        Task i (Answered (ChildGone r)) ∈ h ->
        spawn_promise r = Settled (Rejected e) ->
        Task i (Ended (Rejected e)) ∈ h
        /\ forall op, Task i (Began (WPromise op)) ∉ h)
  /\ (forall r v,
        spawn_promise r = Settled (Fulfilled v) ->
        arrive <$> resume (buildNerdctlStub proc os) (ChildGone r)
        = Some (Began (WPromise (stub_copy proc os)))).
Proof.
  intros Hos Hi h. subst h.
  set (h := history (answers (wait proc tasks) schedule)).
  assert (Hstate : of_task i h = [] \/ exists t, stub_state proc os t (of_task i h)).
  { destruct (task_projection proc tasks schedule i _ Hi) as [Hnil|(t & Hrun)];
      [by left|right]. exists t. by apply stub_solo. }
  split_and!.
  - intros newer older Hsplit.
    pose proof (of_task_split i h newer older _ Hsplit) as Hproj.
    destruct Hstate as [Hnil|(t & Hstate)].
    { rewrite Hnil in Hproj. by destruct (of_task i newer). }
    destruct (proj1 (stub_state_order _ _ _ _ Hstate) _ _ Hproj)
      as (Hbuild & r & v & Hgone & Hok).
    split; [by apply elem_of_of_task|].
    exists r, v. split; [by apply elem_of_of_task|done].
  - intros r e Hin Hrej. apply elem_of_of_task in Hin.
    destruct Hstate as [Hnil|(t & Hstate)].
    { rewrite Hnil in Hin. by apply elem_of_nil in Hin. }
    destruct (proj2 (stub_state_order _ _ _ _ Hstate) r e Hin Hrej) as (Hend & Hno).
    split; [by apply elem_of_of_task|].
    intros op Hop. apply elem_of_of_task in Hop. by apply (Hno op).
  - intros r v Hok. rewrite (buildNerdctlStub_unfold proc os Hos). cbn.
    unfold stub_built. by rewrite Hok.
Qed.

(** ** The serial toggle *)

Lemma starts_launch tasks : forall i h,
  starts (launch i tasks h) = starts h ++ seq i (length tasks).
Proof.
  induction tasks as [|t rest IH]; intros i h; cbn [launch length seq].
  - by rewrite app_nil_r.
  - rewrite IH, !starts_cons. pose proof (arrive_not_started t).
    destruct (arrive t); by rewrite ?app_nil_r, <- ?app_assoc.
Qed.

Lemma answers_process schedule : forall rt,
  rt_process (answers rt schedule) = rt_process rt.
Proof.
  induction schedule as [|a schedule IH]; intros rt; [done|].
  change (answers rt (a :: schedule)) with (answers (deliver rt a) schedule).
  by rewrite IH.
Qed.

(** C9.  The toggle is true exactly when "--serial" is among the arguments
    of the process; [wait] reads it when it is called and never changes the
    process; so two calls on the same tasks, between which the arguments
    were replaced, differ: the parallel one has called every task, the
    serial one only the first. *)
Theorem serial_toggle :
  (forall proc, serial proc = true <-> "--serial" ∈ argv proc)
  /\ (forall proc tasks schedule,
        rt_process (answers (wait proc tasks) schedule) = proc)
  /\ (forall proc tasks,
        (serial proc = true ->
           rt_coord (wait proc tasks) = Serially (wait_serial tasks))
        /\ (serial proc = false ->
              rt_coord (wait proc tasks) = Jointly (wait_parallel tasks)))
  /\ (forall proc args first second rest,
        serial proc = false ->
        serial (with_argv args proc) = true ->
        (forall s, first <> Ret s) ->
        let tasks := first :: second :: rest in
        starts (history (wait proc tasks)) = seq 0 (length tasks)
        /\ starts (history (wait (with_argv args proc) tasks)) = [0]).
Proof.
  split_and!.
  - intros proc. unfold serial. rewrite existsb_exists. split.
    + intros (x & Hin & Hx). apply String.eqb_eq in Hx. subst x.
      by apply list_elem_of_In.
    + intros Hin. exists "--serial". split; [by apply list_elem_of_In|done].
  - intros proc tasks schedule. by rewrite answers_process.
  - intros proc tasks. unfold wait. split; intros ->; done.
  - intros proc args first second rest Hpar Hser Hfirst tasks. subst tasks.
    unfold wait, history. rewrite Hpar, Hser. cbn [rt_coord]. split.
    + unfold wait_parallel, pool_of. cbn [p_history].
      rewrite starts_cons, app_nil_r. by rewrite starts_launch.
    + destruct first as [s| | | |]; [by destruct (Hfirst s)|done..].
Qed.

Lemma serial_toggle_witness :
  serial sample_serial = true
  /\ starts (history (wait sample_parallel [copy_task "a"; copy_task "b"])) = [0; 1]
  /\ starts (history (wait sample_serial [copy_task "a"; copy_task "b"])) = [0].
Proof.
  destruct serial_toggle as (Hiff & _ & _ & Hdiffer).
  split.
  - apply Hiff. cbn. set_solver.
  - apply (Hdiffer sample_parallel (argv sample_serial)
             (copy_task "a") (copy_task "b") []); done.
Defined.

(** ** Sample runs of the two disciplines *)

Lemma serial_coordination_witness :
  let tasks := [copy_task "a"; copy_task "b"; copy_task "c"] in
  let schedule := [(0, Answer (Fulfilled VUndefined));
                   (1, Answer (Rejected (Error "b failed")))] in
  let rt := answers (wait sample_serial tasks) schedule in
  result rt = Settled (Rejected (Error "b failed"))
  /\ (forall te, Task 2 te ∉ history rt)
  /\ starts (history rt) = [0; 1].
Proof.
  intros tasks schedule rt.
  destruct (serial_coordination sample_serial tasks schedule eq_refl)
    as (_ & _ & _ & Hfail & _).
  destruct (Hfail 1 (Error "b failed")) as (Hres & Hlater & _).
  - cbn. left.
  - split; [exact Hres|]. split; [|reflexivity].
    intros te. apply Hlater. lia.
Defined.

Lemma parallel_coordination_witness :
  let tasks := [copy_task "a"; copy_task "b"] in
  let schedule := [(1, Answer (Rejected (Error "b failed")));
                   (0, Answer (Rejected (Error "a failed")))] in
  let rt := answers (wait sample_parallel tasks) schedule in
  result rt = Settled (Rejected (Error "b failed"))
  /\ Task 0 (Ended (Rejected (Error "a failed"))) ∈ history rt
  /\ starts (history (wait sample_parallel tasks)) = [0; 1].
Proof.
  intros tasks schedule rt.
  destruct (parallel_coordination sample_parallel tasks schedule eq_refl)
    as (_ & _ & _ & Hfail & _).
  destruct (Hfail 0 (Error "a failed")) as (e1 & Hfirst & Hres).
  - cbn. left.
  - cbn in Hfirst. simplify_eq. split; [exact Hres|]. split; [cbn; left|reflexivity].
Defined.

Lemma stub_copy_follows_build_witness :
  let tasks := buildMain_tasks sample_parallel in
  let schedule := [(2, ChildGone (Exited 1))] in
  let h := history (answers (wait sample_parallel tasks) schedule) in
  Task 2 (Ended (Rejected (Error "Process exited with code 1"))) ∈ h
  /\ forall op, Task 2 (Began (WPromise op)) ∉ h.
Proof.
  intros tasks schedule h.
  destruct (stub_copy_follows_build sample_parallel "windows" tasks 2 schedule)
    as (_ & Hfail & _).
  - by left.
  - reflexivity.
  - apply (Hfail (Exited 1)).
    + cbn. right. left.
    + reflexivity.
Defined.

(** ** lima.mjs: run *)

Lemma announce_no_promise i s inputs : forall j a,
  (forall x k, x ∈ inputs -> x <> VPromise k) ->
  announce i s j inputs a = a.
Proof.
  induction inputs as [|x rest IH]; intros j a Hno; [done|].
  cbn [announce]. rewrite IH by (intros y k Hy; apply Hno; by right).
  destruct x; try done. exfalso. eapply Hno; [left|done].
Qed.

Lemma pool_answers_outside schedule : forall p,
  (forall x k, x ∈ inputs p -> x <> VPromise k) ->
  agg (pool_answers p schedule) = agg p
  /\ inputs (pool_answers p schedule) = inputs p
  /\ length (slots (pool_answers p schedule)) = length (slots p).
Proof.
  induction schedule as [|[i r] schedule IH]; intros p Hno; [done|].
  change (pool_answers p ((i, r) :: schedule))
    with (pool_answers (pool_deliver p i r) schedule).
  assert (Hstep : agg (pool_deliver p i r) = agg p
                  /\ inputs (pool_deliver p i r) = inputs p
                  /\ length (slots (pool_deliver p i r)) = length (slots p)).
  { unfold pool_deliver. destruct (slots p !! i) as [t|]; [|done].
    destruct (resume t r) as [t'|]; [|done]. cbn [agg inputs slots].
    rewrite length_insert. split; [|done].
    destruct t'; try done. by apply announce_no_promise. }
  destruct Hstep as (Hagg & Hin & Hlen).
  destruct (IH (pool_deliver p i r)) as (-> & -> & ->); [by rewrite Hin|done].
Qed.

(** The three shapes of [run]. *)
Lemma run_shapes proc :
  let one platform :=
    pool_of [getLima proc platform; getAlpineLima proc "x86_64" platform]
            [VArray [VPromise 0; VPromise 1]] in
  run proc = one (platform proc)
  \/ run proc = one "macos"
  \/ run proc
     = pool_of [getLima proc "macos-aarch64";
                getAlpineLima proc "aarch64" "macos-aarch64";
                getLima proc "macos"; getAlpineLima proc "x86_64" "macos"]
               [VArray [VPromise 0; VPromise 1]; VArray [VPromise 2; VPromise 3]].
Proof.
  intros one. unfold run.
  destruct (String.eqb (platform proc) "darwin"); [|by left].
  destruct (m1_requested proc); [|by right; left].
  right. right. reflexivity.
Qed.

(** C10.  The promise returned by [run] is fulfilled, with the arrays it was
    given, as soon as [run] has made its calls and whatever is answered
    afterwards: its inputs are arrays, none is a promise, so no settlement
    of [getLima] or [getAlpineLima] reaches it and no rejection of theirs
    becomes its own. *)
Theorem run_settles_at_once (proc : process) (schedule : list (nat * response)) :
  let p := pool_answers (run proc) schedule in
  outcome (agg p) = Settled (Fulfilled (VArray (inputs (run proc))))
  /\ (forall x, x ∈ inputs (run proc) ->
        exists a b, x = VArray [VPromise a; VPromise b]
                    /\ a < length (slots p) /\ b < length (slots p))
  /\ (forall i e, Task i (Ended (Rejected e)) ∈ p_history p ->
        is_rejected (outcome (agg p)) = false).
Proof.
  intros p. subst p.
  assert (Hmain : outcome (agg (run proc)) = Settled (Fulfilled (VArray (inputs (run proc))))
          /\ forall x, x ∈ inputs (run proc) ->
               exists a b, x = VArray [VPromise a; VPromise b]
                           /\ a < length (slots (run proc))
                           /\ b < length (slots (run proc))).
  { destruct (run_shapes proc) as [->|[->| ->]]; (split; [reflexivity|]);
      cbn [inputs pool_of slots length]; intros x Hx.
    - apply list_elem_of_singleton in Hx as ->. exists 0, 1. split_and!; [done|lia..].
    - apply list_elem_of_singleton in Hx as ->. exists 0, 1. split_and!; [done|lia..].
    - apply elem_of_cons in Hx as [->|Hx]; [exists 0, 1; split_and!; [done|lia..]|].
      apply list_elem_of_singleton in Hx as ->. exists 2, 3. split_and!; [done|lia..]. }
  destruct Hmain as (Hout & Harrays).
  destruct (pool_answers_outside schedule (run proc)) as (Hagg & Hin & Hlen).
  { intros x k Hx ->. by destruct (Harrays _ Hx) as (a & b & ? & _). }
  rewrite Hagg, Hlen, Hout. split_and!; [done|done|].
  intros i e _. reflexivity.
Qed.

(** A run in which the manifest of lima is refused: the task is rejected,
    the promise of [run] is fulfilled all the same. *)
Lemma run_settles_at_once_witness :
  let refused := Error "HTTP 404" in
  let p := pool_answers (run sample_mac) [(0, Answer (Rejected refused))] in
  Task 0 (Ended (Rejected refused)) ∈ p_history p
  /\ is_rejected (outcome (agg p)) = false
  /\ is_fulfilled (outcome (agg p)) = true.
Proof.
  intros refused p.
  destruct (run_settles_at_once sample_mac [(0, Answer (Rejected refused))])
    as (Hout & _ & Hrej).
  assert (Hin : Task 0 (Ended (Rejected refused)) ∈ p_history p) by (cbn; left).
  split; [exact Hin|]. split; [exact (Hrej 0 refused Hin)|].
  subst p. cbv zeta in Hout. by rewrite Hout.
Defined.

(** Had the promises themselves been handed to [Promise.all], [run] would
    be the parallel discipline of [wait] over the same tasks. *)
Lemma run_flattened proc :
  pool_of (slots (run proc)) (flat_inputs (inputs (run proc)))
  = wait_parallel (slots (run proc)).
Proof. by destruct (run_shapes proc) as [->|[->| ->]]. Qed.

(** * More of the code *)

(** ** lima.mjs: getLima step by step *)

Lemma getLima_unfold proc platform :
  getLima proc platform
  = Await (lima_manifest platform) (lima_after_manifest proc platform).
Proof. reflexivity. Qed.

Lemma lima_after_manifest_text proc platform body :
  lima_after_manifest proc platform (Fulfilled (VText body))
  = Await (lima_download proc platform (VText (first_field body)))
          (lima_after_download proc platform).
Proof. cbn. unfold first_of_split. by rewrite split_spaces_first. Qed.

(** Only a text lets [getLima] go on after the manifest. *)
Lemma lima_after_manifest_waits proc platform s r t' :
  resume (lima_after_manifest proc platform s) r = Some t' ->
  exists body s', s = Fulfilled (VText body) /\ r = Answer s'
                  /\ t' = lima_after_download proc platform s'.
Proof.
  destruct s as [[| | |body| |]|e]; try done.
  rewrite lima_after_manifest_text. destruct r; try done.
  cbn. intros ?. simplify_eq. eauto.
Qed.

Lemma lima_solo proc platform t h :
  solo (getLima proc platform) t h -> lima_state proc platform t h.
Proof.
  induction 1 as [|t h r t' Hrun Hstate Hres]; [constructor|].
  destruct Hstate as [|s|body s|body v1 s|body v1 v2 run].
  - rewrite getLima_unfold in Hres. destruct r; simplify_eq/=. constructor.
  - apply lima_after_manifest_waits in Hres as (body & s' & -> & -> & ->).
    rewrite lima_after_manifest_text. cbn [arrive].
    apply (lima_at_mkdir proc platform body s').
  - destruct s as [v|e]; [|done].
    destruct r as [s'|run|err hasErrors details]; simplify_eq/=.
    apply (lima_at_tar proc platform body v s').
  - destruct s as [v|e]; [|done].
    destruct r as [s'|run|err hasErrors details]; simplify_eq/=.
    apply (lima_at_end proc platform body v1 v run).
  - unfold lima_after_tar, await_emitter in Hres.
    by destruct (promise (extract_outcome run)) as [|[]].
Qed.

(** Where tar is begun in a state of [getLima]. *)
Lemma lima_state_tar proc platform t h :
  lima_state proc platform t h ->
  forall newer older inv,
    h = newer ++ Began (WChild inv) :: older ->
    inv = tar_invocation proc platform
    /\ exists body v1 v2,
         Began (WChild inv) :: older = lima_extracting proc platform body v1 v2.
Proof.
  intros Hrun newer older inv Hsplit.
  destruct Hrun as [|s|body s|body v1 s|body v1 v2 run];
    unfold lima_extracting, lima_making, lima_downloading, lima_requested in Hsplit.
  - repeat (destruct newer as [|? newer]; simplify_eq/=).
  - destruct s as [[| | |body| |]|e];
      rewrite ?lima_after_manifest_text in Hsplit;
      repeat (destruct newer as [|? newer]; simplify_eq/=).
  - destruct s as [v|e];
      repeat (destruct newer as [|? newer]; simplify_eq/=).
  - destruct s as [v|e];
      repeat (destruct newer as [|? newer]; simplify_eq/=).
    split; [done|]. by exists body, v1, v.
  - unfold lima_after_tar, await_emitter in Hsplit.
    destruct (promise (extract_outcome run)) as [|[]];
      repeat (destruct newer as [|? newer]; simplify_eq/=).
    all: split; [done|]; by exists body, v1, v2.
Qed.


(** X1.  In every history of [getLima], tar is started only when
    the manifest came back as a text, the download checked against the first
    field of that text with sha512 was fulfilled, and the directory was
    made, in this order and with nothing else in between. *)
Theorem getLima_extracts_after_download (proc : process) (platform : string)
    (t : task) (h : list tevent) :
  solo (getLima proc platform) t h ->
  forall newer older inv,
    h = newer ++ Began (WChild inv) :: older ->
    inv = tar_invocation proc platform
    /\ exists body v1 v2,
         Began (WChild inv) :: older = lima_extracting proc platform body v1 v2.
Proof. intros Hrun. exact (lima_state_tar _ _ _ _ (lima_solo _ _ _ _ Hrun)). Qed.

Lemma getLima_extracts_after_download_witness :
  let proc := sample_mac in
  let h := [Began (WChild (tar_invocation proc "macos"));
            Answered (Answer (Fulfilled VUndefined));
            Began (WPromise (lima_mkdir proc "macos"));
            Answered (Answer (Fulfilled VUndefined));
            Began (WPromise (lima_download proc "macos" (VText (units "ab12"))));
            Answered (Answer (Fulfilled (VText (units "ab12  lima.tgz"))));
            Began (WPromise (lima_manifest "macos")); Started] in
  exists body v1 v2, h = lima_extracting proc "macos" body v1 v2.
Proof.
  intros proc h.
  assert (Hrun : solo (getLima proc "macos")
                   (Child (tar_invocation proc "macos") lima_after_tar) h).
  { pose proof (solo_called (getLima proc "macos")) as H0.
    pose proof (solo_answered _ _ _ (Answer (Fulfilled (VText (units "ab12  lima.tgz")))) _
                  H0 eq_refl) as H1.
    pose proof (solo_answered _ _ _ (Answer (Fulfilled VUndefined)) _ H1 eq_refl) as H2.
    exact (solo_answered _ _ _ (Answer (Fulfilled VUndefined)) _ H2 eq_refl). }
  destruct (getLima_extracts_after_download proc "macos" _ h Hrun [] (tl h)
              (tar_invocation proc "macos") eq_refl) as (_ & body & v1 & v2 & Heq).
  by exists body, v1, v2.
Defined.

(** X2.  When the manifest request, the download or the making of the
    directory is rejected, [getLima] is rejected with that same error at
    once: the rejection is the last thing that happened to it, and tar is
    never started. *)
Theorem getLima_fails_fast (proc : process) (platform : string)
    (t : task) (h : list tevent) (e : error) :
  solo (getLima proc platform) t h ->
  Answered (Answer (Rejected e)) ∈ h ->
  t = Ret (Rejected e)
  /\ (exists older, h = Ended (Rejected e) :: Answered (Answer (Rejected e)) :: older)
  /\ forall inv, Began (WChild inv) ∉ h.
Proof.
  intros Hrun Hin. apply lima_solo in Hrun.
  destruct Hrun as [|s|body s|body v1 s|body v1 v2 run];
    unfold lima_extracting, lima_making, lima_downloading, lima_requested in *.
  - set_solver.
  - destruct s as [[| | |body| |]|e'];
      rewrite ?lima_after_manifest_text in *; cbn in Hin |- *;
      try (exfalso; set_solver).
    assert (e' = e) as -> by set_solver.
    split_and!; [done|by eexists|set_solver].
  - destruct s as [v|e']; cbn in Hin |- *; [exfalso; set_solver|].
    assert (e' = e) as -> by set_solver.
    split_and!; [done|by eexists|set_solver].
  - destruct s as [v|e']; cbn in Hin |- *; [exfalso; set_solver|].
    assert (e' = e) as -> by set_solver.
    split_and!; [done|by eexists|set_solver].
  - exfalso. unfold lima_after_tar, await_emitter in Hin.
    destruct (promise (extract_outcome run)) as [|[]]; set_solver.
Qed.

Lemma getLima_fails_fast_witness :
  let e := Error "sha512 does not match" in
  let h := [Ended (Rejected e); Answered (Answer (Rejected e));
            Began (WPromise (lima_download sample_mac "macos" (VText (units "ab12"))));
            Answered (Answer (Fulfilled (VText (units "ab12  lima.tgz"))));
            Began (WPromise (lima_manifest "macos")); Started] in
  solo (getLima sample_mac "macos") (Ret (Rejected e)) h
  /\ Began (WChild (tar_invocation sample_mac "macos")) ∉ h.
Proof.
  intros e h.
  assert (Hrun : solo (getLima sample_mac "macos") (Ret (Rejected e)) h).
  { pose proof (solo_called (getLima sample_mac "macos")) as H0.
    pose proof (solo_answered _ _ _ (Answer (Fulfilled (VText (units "ab12  lima.tgz")))) _
                  H0 eq_refl) as H1.
    exact (solo_answered _ _ _ (Answer (Rejected e)) _ H1 eq_refl). }
  assert (Hin : Answered (Answer (Rejected e)) ∈ h) by (right; left).
  split; [exact Hrun|].
  exact (proj2 (proj2 (getLima_fails_fast sample_mac "macos" _ h e Hrun Hin)) _).
Defined.

Lemma lima_after_tar_cases r :
  lima_after_tar r
  = match r with
    | Exited code =>
        if bool_decide (code = 0%Z) then Ret (Fulfilled VUndefined)
        else Ret (Rejected (Error ("Lima extract failed with " +:+ pretty code)))
    | Killed signal =>
        Ret (Rejected (Error ("Lima extract failed with " +:+ signal)))
    | SpawnFailed _ err => Stalled (Some err)
    end.
Proof.
  unfold lima_after_tar, await_emitter. destruct r as [code|signal|errno err].
  - fold (extract_promise (Exited code)). rewrite extract_promise_exited.
    by case_bool_decide.
  - reflexivity.
  - reflexivity.
Qed.

(** X3.  [getLima] is fulfilled only at the end of the whole chain: the
    manifest came back as a text, the download and the directory were
    fulfilled, and tar exited with code 0; and once tar is gone, [getLima] is
    fulfilled for exit code 0, rejected with "Lima extract failed with" and
    the code or the signal otherwise. *)
Theorem getLima_settles_with_tar (proc : process) (platform : string)
    (t : task) (h : list tevent) :
  solo (getLima proc platform) t h ->
  (forall v, t = Ret (Fulfilled v) ->
     v = VUndefined
     /\ exists body v1 v2,
          h = Ended (Fulfilled VUndefined) :: Answered (ChildGone (Exited 0))
              :: lima_extracting proc platform body v1 v2)
  /\ (forall code, Answered (ChildGone (Exited code)) ∈ h ->
        t = if bool_decide (code = 0%Z) then Ret (Fulfilled VUndefined)
            else Ret (Rejected (Error ("Lima extract failed with " +:+ pretty code))))
  /\ (forall signal, Answered (ChildGone (Killed signal)) ∈ h ->
        t = Ret (Rejected (Error ("Lima extract failed with " +:+ signal)))).
Proof.
  intros Hrun. apply lima_solo in Hrun.
  assert (Hgone : forall run, Answered (ChildGone run) ∈ h -> t = lima_after_tar run).
  { intros run0 Hin.
    destruct Hrun as [|s|body s|body v1 s|body v1 v2 run];
      unfold lima_extracting, lima_making, lima_downloading, lima_requested in *.
    - set_solver.
    - destruct s as [[| | |body| |]|e'];
        rewrite ?lima_after_manifest_text in *; cbn in Hin; set_solver.
    - destruct s as [v|e']; cbn in Hin; set_solver.
    - destruct s as [v|e']; cbn in Hin; set_solver.
    - assert (run0 = run) as ->; [|done].
      rewrite lima_after_tar_cases in Hin.
      destruct run as [code|signal|errno err]; [case_bool_decide|..]; set_solver. }
  split_and!.
  - intros v Ht.
    destruct Hrun as [|s|body s|body v1 s|body v1 v2 run].
    + done.
    + destruct s as [[| | |body| |]|e']; rewrite ?lima_after_manifest_text in Ht; done.
    + by destruct s.
    + by destruct s.
    + rewrite lima_after_tar_cases in Ht |- *.
      destruct run as [code|signal|errno err]; [|done..].
      case_bool_decide; simplify_eq. split; [done|]. by exists body, v1, v2.
  - intros code Hin. by rewrite (Hgone _ Hin), lima_after_tar_cases.
  - intros signal Hin. by rewrite (Hgone _ Hin), lima_after_tar_cases.
Qed.

Lemma getLima_settles_with_tar_witness :
  let proc := sample_mac in
  let h := Ended (Rejected (Error "Lima extract failed with 2"))
           :: Answered (ChildGone (Exited 2))
           :: lima_extracting proc "macos" (units "ab12  lima.tgz") VUndefined VUndefined in
  solo (getLima proc "macos") (Ret (Rejected (Error "Lima extract failed with 2"))) h
  /\ forall t, solo (getLima proc "macos") t h ->
       t = Ret (Rejected (Error "Lima extract failed with 2")).
Proof.
  intros proc h.
  assert (Hrun : solo (getLima proc "macos")
                   (Ret (Rejected (Error "Lima extract failed with 2"))) h).
  { pose proof (solo_called (getLima proc "macos")) as H0.
    pose proof (solo_answered _ _ _ (Answer (Fulfilled (VText (units "ab12  lima.tgz")))) _
                  H0 eq_refl) as H1.
    pose proof (solo_answered _ _ _ (Answer (Fulfilled VUndefined)) _ H1 eq_refl) as H2.
    pose proof (solo_answered _ _ _ (Answer (Fulfilled VUndefined)) _ H2 eq_refl) as H3.
    exact (solo_answered _ _ _ (ChildGone (Exited 2)) _ H3 eq_refl). }
  split; [exact Hrun|].
  intros t Ht.
  destruct (getLima_settles_with_tar proc "macos" t h Ht) as (_ & Hcode & _).
  apply (Hcode 2%Z). right. left.
Defined.

(** X4.  When tar cannot be started, nothing listens to its ['error']:
    the error escapes, [getLima] is neither fulfilled nor rejected, and no
    later answer can move it. *)
Theorem getLima_stalls_without_tar (proc : process) (platform : string)
    (t : task) (h : list tevent) (errno : Z) (err : error) :
  solo (getLima proc platform) t h ->
  Answered (ChildGone (SpawnFailed errno err)) ∈ h ->
  t = Stalled (Some err)
  /\ (forall s, Ended s ∉ h)
  /\ (forall r, resume t r = None).
Proof.
  intros Hrun Hin. apply lima_solo in Hrun.
  destruct Hrun as [|s|body s|body v1 s|body v1 v2 run];
    unfold lima_extracting, lima_making, lima_downloading, lima_requested in *.
  - set_solver.
  - destruct s as [[| | |body| |]|e'];
      rewrite ?lima_after_manifest_text in *; cbn in Hin; set_solver.
  - destruct s as [v|e']; cbn in Hin; set_solver.
  - destruct s as [v|e']; cbn in Hin; set_solver.
  - assert (run = SpawnFailed errno err) as ->.
    { rewrite lima_after_tar_cases in Hin.
      destruct run as [code|signal|errno' err']; [case_bool_decide|..]; set_solver. }
    rewrite lima_after_tar_cases. cbn. split_and!; [done|set_solver|done].
Qed.

Lemma getLima_stalls_without_tar_witness :
  let proc := sample_mac in
  let err := SystemError "spawn /usr/bin/tar" "ENOENT" in
  let h := Stalls (Some err) :: Answered (ChildGone (SpawnFailed (-2) err))
           :: lima_extracting proc "macos" (units "ab12  lima.tgz") VUndefined VUndefined in
  solo (getLima proc "macos") (Stalled (Some err)) h /\ forall s, Ended s ∉ h.
Proof.
  intros proc err h.
  assert (Hrun : solo (getLima proc "macos") (Stalled (Some err)) h).
  { pose proof (solo_called (getLima proc "macos")) as H0.
    pose proof (solo_answered _ _ _ (Answer (Fulfilled (VText (units "ab12  lima.tgz")))) _
                  H0 eq_refl) as H1.
    pose proof (solo_answered _ _ _ (Answer (Fulfilled VUndefined)) _ H1 eq_refl) as H2.
    pose proof (solo_answered _ _ _ (Answer (Fulfilled VUndefined)) _ H2 eq_refl) as H3.
    exact (solo_answered _ _ _ (ChildGone (SpawnFailed (-2) err)) _ H3 eq_refl). }
  split; [exact Hrun|].
  apply (getLima_stalls_without_tar proc "macos" _ h (-2)%Z err Hrun).
  right. left.
Defined.

(** ** lima.mjs: getAlpineLima *)

Lemma alpine_after_manifest_text proc arch platform body :
  alpine_after_manifest proc arch platform (Fulfilled (VText body))
  = Await (alpine_download proc arch platform (VText (first_field body)))
          alpine_after_download.
Proof. cbn. unfold first_of_split. by rewrite split_spaces_first. Qed.

Lemma alpine_solo proc arch platform t h :
  solo (getAlpineLima proc arch platform) t h -> alpine_state proc arch platform t h.
Proof.
  induction 1 as [|t h r t' Hrun Hstate Hres]; [constructor|].
  destruct Hstate as [|s|body s].
  - change (getAlpineLima proc arch platform)
      with (Await (alpine_manifest arch) (alpine_after_manifest proc arch platform))
      in Hres.
    destruct r; simplify_eq/=. constructor.
  - destruct s as [[| | |body| |]|e]; try done.
    rewrite alpine_after_manifest_text in Hres |- *.
    destruct r as [s'|run|err hasErrors details]; simplify_eq/=.
    apply (alpine_at_end proc arch platform body s').
  - by destruct s.
Qed.

(** What a state of [getAlpineLima] has begun. *)
Lemma alpine_state_began proc arch platform t h :
  alpine_state proc arch platform t h ->
  forall w, Began w ∈ h ->
    w = WPromise (alpine_manifest arch)
    \/ exists body,
         w = WPromise (alpine_download proc arch platform (VText (first_field body))).
Proof.
  intros Hstate w Hw.
  destruct Hstate as [|s|body s]; unfold alpine_downloading, alpine_requested in *.
  - set_solver.
  - destruct s as [[| | |body| |]|e'];
      rewrite ?alpine_after_manifest_text in Hw; cbn in Hw; try (left; set_solver).
    apply elem_of_cons in Hw as [Hw|Hw]; [simplify_eq; right; by exists body|].
    left. set_solver.
  - destruct s as [v|e']; cbn in Hw.
    all: apply elem_of_cons in Hw as [Hw|Hw]; [done|].
    all: apply elem_of_cons in Hw as [Hw|Hw]; [done|].
    all: apply elem_of_cons in Hw as [Hw|Hw]; [simplify_eq; right; by exists body|].
    all: left; set_solver.
Qed.



(** ** lima.mjs: the checksum taken from the manifest *)






(** ** lima.mjs: run *)

(** In a pool, whatever [Promise.all] was given, what happens to one task
    is a history of that task alone. *)
Lemma pool_projection tasks ins schedule i t0 :
  tasks !! i = Some t0 ->
  let p := pool_answers (pool_of tasks ins) schedule in
  exists t, slots p !! i = Some t /\ solo t0 t (of_task i (p_history p)).
Proof.
  intros Hi p. subst p.
  assert (Hgen : forall schedule p,
            (exists t, slots p !! i = Some t /\ solo t0 t (of_task i (p_history p))) ->
            exists t, slots (pool_answers p schedule) !! i = Some t
                      /\ solo t0 t (of_task i (p_history (pool_answers p schedule)))).
  { clear. induction schedule as [|[k r] schedule IH]; intros p Hp; [done|].
    change (pool_answers p ((k, r) :: schedule))
      with (pool_answers (pool_deliver p k r) schedule).
    apply IH. destruct Hp as (t & Ht & Hrun). unfold pool_deliver.
    destruct (slots p !! k) as [tk|] eqn:Hk; [|by exists t].
    destruct (resume tk r) as [t'|] eqn:Hres; [|by exists t].
    cbn [slots p_history]. destruct (decide (i = k)) as [->|Hne].
    - exists t'. rewrite list_lookup_insert_eq by by eapply lookup_lt_Some.
      split; [done|]. rewrite !of_task_cons_same. simplify_eq.
      by eapply solo_answered.
    - exists t. rewrite list_lookup_insert_ne by done. split; [done|].
      by rewrite !of_task_cons_other by done. }
  apply Hgen. exists t0. split; [done|]. cbn [pool_of p_history].
  rewrite of_task_cons_await, (of_task_launch tasks 0 [] i t0).
  - constructor.
  - by rewrite Nat.sub_0_r.
  - lia.
  - intros te Hin. by apply elem_of_nil in Hin.
Qed.

Lemma run_slots proc :
  slots (run proc)
  = (if String.eqb (platform proc) "darwin" && m1_requested proc
     then [getLima proc "macos-aarch64"; getAlpineLima proc "aarch64" "macos-aarch64"]
     else [])
    ++ (let p := if String.eqb (platform proc) "darwin" then "macos" else platform proc in
        [getLima proc p; getAlpineLima proc "x86_64" p]).
Proof.
  unfold run. destruct (String.eqb (platform proc) "darwin"); [|done].
  by destruct (m1_requested proc).
Qed.

(** X7.  Which resources [run] asks for: the x86_64 pair always, under the
    platform name, "macos" standing for darwin; the aarch64 pair before it
    only on darwin, never when M1 is "0", always when M1 is another
    non-empty text, and otherwise exactly on an arm64 process. *)
Theorem run_downloads (proc : process) :
  let p := if String.eqb (platform proc) "darwin" then "macos" else platform proc in
  (exists m1, slots (run proc) = m1 ++ [getLima proc p; getAlpineLima proc "x86_64" p]
      /\ (m1 = [] \/
          m1 = [getLima proc "macos-aarch64";
                getAlpineLima proc "aarch64" "macos-aarch64"]))
  /\ (platform proc <> "darwin" -> length (slots (run proc)) = 2)
  /\ (env proc !! "M1" = Some "0" -> length (slots (run proc)) = 2)
  /\ (platform proc = "darwin" ->
      forall v, env proc !! "M1" = Some v -> v <> "0" -> v <> EmptyString ->
      length (slots (run proc)) = 4)
  /\ (platform proc = "darwin" ->
      env proc !! "M1" = None \/ env proc !! "M1" = Some EmptyString ->
      (length (slots (run proc)) = 4 <-> arch proc = "arm64")).
Proof.
  intros p. subst p. rewrite run_slots. unfold m1_requested. split_and!.
  - eexists. split; [done|]. destruct (_ && _); eauto.
  - intros Hne. destruct (String.eqb_spec (platform proc) "darwin"); done.
  - intros ->. by rewrite andb_false_r.
  - intros -> v -> Hv0 Hve. cbn.
    rewrite bool_decide_eq_false_2 by congruence.
    destruct (String.eqb_spec v EmptyString); done.
  - intros -> HM1. cbn.
    destruct (String.eqb_spec (arch proc) "arm64") as [Harm|Harm];
      destruct HM1 as [-> | ->]; cbn; split; try done; lia.
Qed.

Lemma run_downloads_witness :
  length (slots (run sample_mac)) = 4
  /\ length (slots (run (with_argv [] sample_serial))) = 2.
Proof.
  split.
  - destruct (run_downloads sample_mac) as (_ & _ & _ & _ & Harm).
    apply Harm; [reflexivity|by left|reflexivity].
  - destruct (run_downloads (with_argv [] sample_serial)) as (_ & Hother & _).
    apply Hother. discriminate.
Defined.

(** X8.  Under [run], whatever the order of the answers, every process
    that is started is the tar of a [getLima] among the tasks, and it is
    started only after that task's own manifest, download and directory. *)
Theorem run_extracts_after_download (proc : process)
    (schedule : list (nat * response)) (i : nat) (inv : invocation) :
  let h := p_history (pool_answers (run proc) schedule) in
  forall newer older,
    h = newer ++ Task i (Began (WChild inv)) :: older ->
    exists platform body v1 v2,
      slots (run proc) !! i = Some (getLima proc platform)
      /\ inv = tar_invocation proc platform
      /\ Began (WChild inv) :: of_task i older
         = lima_extracting proc platform body v1 v2.
Proof.
  intros h newer older Hsplit. subst h.
  assert (Hin : Began (WChild inv)
                ∈ of_task i (p_history (pool_answers (run proc) schedule))).
  { apply elem_of_of_task. rewrite Hsplit. apply elem_of_app. right. left. }
  pose proof (of_task_split i _ newer older _ Hsplit) as Hproj.
  assert (Hrun : run proc = pool_of (slots (run proc)) (inputs (run proc))).
  { by destruct (run_shapes proc) as [->|[->| ->]]. }
  destruct (slots (run proc) !! i) as [t0|] eqn:Hi.
  - rewrite Hrun in Hproj, Hin.
    destruct (pool_projection _ (inputs (run proc)) schedule i t0 Hi) as (t & _ & Hsolo).
    assert (Hkind : (exists platform, t0 = getLima proc platform)
                    \/ exists arch platform, t0 = getAlpineLima proc arch platform).
    { rewrite run_slots in Hi.
      destruct (_ && _); cbn in Hi;
        repeat (destruct i as [|i]; simplify_eq/=; eauto). }
    destruct Hkind as [(platform & ->)|(arch & platform & ->)].
    + destruct (lima_state_tar _ _ _ _ (lima_solo _ _ _ _ Hsolo) _ _ _ Hproj)
        as (-> & body & v1 & v2 & Heq).
      by exists platform, body, v1, v2.
    + exfalso.
      destruct (alpine_state_began _ _ _ _ _ (alpine_solo _ _ _ _ _ Hsolo) _ Hin)
        as [?|(body & ?)]; done.
  - exfalso. apply elem_of_of_task in Hin.
    assert (Hno : forall schedule p te,
              slots p !! i = None ->
              (forall te, Task i te ∉ p_history p) ->
              Task i te ∉ p_history (pool_answers p schedule)).
    { clear. induction schedule as [|[k r] schedule IH]; intros p te Hnone Hno;
        [apply Hno|].
      change (pool_answers p ((k, r) :: schedule))
        with (pool_answers (pool_deliver p k r) schedule).
      unfold pool_deliver.
      destruct (slots p !! k) as [tk|] eqn:Hk; [|by apply IH].
      destruct (resume tk r) as [t'|]; [|by apply IH].
      assert (k <> i) by congruence.
      apply IH; cbn [slots p_history].
      - by rewrite list_lookup_insert_ne.
      - intros te' [?|[?|Hin]%elem_of_cons]%elem_of_cons; simplify_eq.
        by apply (Hno te'). }
    rewrite Hrun in Hin. revert Hin. apply Hno; [done|].
    cbn [pool_of p_history]. intros te [?|Hin]%elem_of_cons; [done|].
    assert (Hlaunch : forall tasks j h k te,
              Task k te ∈ launch j tasks h ->
              Task k te ∈ h \/ j <= k < j + length tasks).
    { clear. induction tasks as [|t rest IH]; intros j h k te Hin; cbn in *; [by left|].
      apply IH in Hin as [Hin|?]; [|right; lia].
      apply elem_of_cons in Hin as [?|Hin]; [simplify_eq; right; lia|].
      apply elem_of_cons in Hin as [?|Hin]; [simplify_eq; right; lia|by left]. }
    apply Hlaunch in Hin as [Hin|Hrange]; [by apply elem_of_nil in Hin|].
    apply lookup_ge_None in Hi. lia.
Qed.

Lemma run_extracts_after_download_witness :
  let schedule := [(0, Answer (Fulfilled (VText (units "ab12  lima.tgz"))));
                   (0, Answer (Fulfilled VUndefined));
                   (0, Answer (Fulfilled VUndefined))] in
  let h := p_history (pool_answers (run sample_mac) schedule) in
  exists platform body v1 v2,
    slots (run sample_mac) !! 0 = Some (getLima sample_mac platform)
    /\ Began (WChild (tar_invocation sample_mac "macos-aarch64")) :: of_task 0 (tl h)
       = lima_extracting sample_mac platform body v1 v2.
Proof.
  intros schedule h.
  destruct (run_extracts_after_download sample_mac schedule 0
              (tar_invocation sample_mac "macos-aarch64") [] (tl h) eq_refl)
    as (platform & body & v1 & v2 & Hslot & _ & Heq).
  by exists platform, body, v1, v2.
Defined.

(** ** build-utils.mjs: the arguments of spawn *)

Lemma arg_texts_map texts : arg_texts (map ArgText texts) = texts.
Proof. induction texts as [|s texts IH]; [done|]. cbn. f_equal. exact IH. Qed.

Lemma arg_texts_snoc_object args o :
  arg_texts (args ++ [ArgObject o]) = arg_texts args.
Proof. unfold arg_texts. rewrite omap_app. cbn. by rewrite app_nil_r. Qed.

(** X9.  [spawn] takes its options from the last argument only, and only
    when that is an object: the object is taken off the arguments and its
    keys replace the defaults, which are the repository root as working
    directory and inherited streams; otherwise every argument goes to the
    child and the defaults stand.  On texts followed by an object that sets
    no stdio this is the invocation the build tasks are modelled with. *)
Theorem spawn_takes_trailing_options (proc : process) (command : string) :
  let defaults := {| ch_cwd := srcDir proc; ch_stdio := "inherit"; ch_env := None |} in
  (forall args o,
     spawn_call proc command (args ++ [ArgObject o])
     = (command, args, assign defaults o))
  /\ (forall args,
        (forall o, last args <> Some (ArgObject o)) ->
        spawn_call proc command args = (command, args, defaults))
  /\ (forall o args s,
        spawn_call proc command (ArgObject o :: args ++ [ArgText s])
        = (command, ArgObject o :: args ++ [ArgText s], defaults))
  /\ (forall texts o,
        co_stdio o = None ->
        invocation_of (spawn_call proc command (map ArgText texts ++ [ArgObject o]))
        = spawn_invocation proc command texts
            (Some {| opt_cwd := co_cwd o; opt_env := co_env o |}))
  /\ (forall texts,
        invocation_of (spawn_call proc command (map ArgText texts))
        = spawn_invocation proc command texts None).
Proof.
  intros defaults.
  assert (Hobj : forall args o,
            spawn_call proc command (args ++ [ArgObject o])
            = (command, args, assign defaults o)).
  { intros args o. unfold spawn_call. by rewrite last_snoc, removelast_last. }
  assert (Hnone : forall args,
            (forall o, last args <> Some (ArgObject o)) ->
            spawn_call proc command args = (command, args, defaults)).
  { intros args Hlast. unfold spawn_call.
    destruct (last args) as [[s|o]|] eqn:E; [done| |done]. by destruct (Hlast o). }
  split_and!; [done|done| | |].
  - intros o args s. apply Hnone. intros o'.
    change (ArgObject o :: args ++ [ArgText s])
      with ((ArgObject o :: args) ++ [ArgText s]).
    by rewrite last_snoc.
  - intros texts o Hstdio. rewrite Hobj. unfold invocation_of, spawn_invocation, assign.
    cbn [fst snd ch_cwd ch_stdio ch_env]. rewrite arg_texts_map, Hstdio.
    subst defaults. cbn. by destruct (co_env o).
  - intros texts. rewrite Hnone.
    + unfold invocation_of, spawn_invocation. cbn [fst snd].
      by rewrite arg_texts_map.
    + intros o. induction texts as [|s [|s' texts] IH]; done.
Qed.

Lemma spawn_takes_trailing_options_witness :
  let o := {| co_cwd := Some "C:\rd\src\go\wsl-helper"; co_stdio := None;
              co_env := Some {["GOOS" := "linux"]} |} in
  spawn_call sample_serial "go" [ArgText "build"; ArgText "."]
  = ("go", [ArgText "build"; ArgText "."],
     {| ch_cwd := "C:\rd"; ch_stdio := "inherit"; ch_env := None |})
  /\ inv_cwd (invocation_of (spawn_call sample_serial "go"
                               (map ArgText ["build"; "."] ++ [ArgObject o])))
     = "C:\rd\src\go\wsl-helper".
Proof.
  intros o.
  destruct (spawn_takes_trailing_options sample_serial "go") as (_ & Hnone & _ & Hinv & _).
  split.
  - apply Hnone. intros o'. discriminate.
  - by rewrite (Hinv ["build"; "."] o eq_refl).
Defined.

(** ** build-utils.mjs: the bundler configuration *)



(** ** build-utils.mjs: the build tasks *)

(** Once every task is settled no answer finds a task to resume. *)
Lemma pool_answers_settled schedule : forall p,
  (forall i t, slots p !! i = Some t -> exists s, t = Ret s) ->
  pool_answers p schedule = p.
Proof.
  induction schedule as [|[k r] schedule IH]; intros p Hall; [done|].
  change (pool_answers p ((k, r) :: schedule))
    with (pool_answers (pool_deliver p k r) schedule).
  assert (Hstep : pool_deliver p k r = p).
  { unfold pool_deliver. destruct (slots p !! k) as [t|] eqn:Hk; [|done].
    by destruct (Hall k t Hk) as (s & ->). }
  rewrite Hstep. by apply IH.
Qed.

(** X11.  On a host whose platform name does not start with "win",
    [buildMain] is the bundling alone, in serial and in parallel mode: it is
    pending until webpack calls back, and then rejected with the error of
    webpack if there is one, rejected with the report of the errors if the
    statistics have errors, and fulfilled otherwise; nothing that is
    answered later changes that. *)
Theorem buildMain_is_the_bundle (proc : process) (err : option error)
    (hasErrors : bool) (details : string) (more : list (nat * response)) :
  String.prefix "win" (platform proc) = false ->
  result (buildMain proc) = Pending
  /\ result (answers (buildMain proc) ((0, Bundled err hasErrors details) :: more))
     = Settled match err with
               | Some e => Rejected e
               | None => if hasErrors then Rejected (Error details)
                         else Fulfilled VUndefined
               end.
Proof.
  intros Hwin. unfold buildMain, buildMain_tasks. rewrite Hwin.
  destruct (serial proc) eqn:Hserial.
  - split; [unfold wait; by rewrite Hserial|].
    rewrite answers_serial by done. unfold result. cbn [rt_coord].
    change (serial_answers ?st (?a :: ?l))
      with (serial_answers (serial_deliver st a.1 a.2) l).
    rewrite serial_answers_idle; by destruct err as [e|], hasErrors.
  - split; [unfold wait; by rewrite Hserial|].
    rewrite answers_parallel by done. unfold result. cbn [rt_coord].
    change (pool_answers ?p (?a :: ?l))
      with (pool_answers (pool_deliver p a.1 a.2) l).
    rewrite pool_answers_settled.
    + by destruct err as [e|], hasErrors.
    + intros i t Hi. destruct i as [|i]; [|by destruct err, hasErrors].
      destruct err as [e|], hasErrors; cbn in Hi; simplify_eq; eauto.
Qed.

Lemma buildMain_is_the_bundle_witness :
  result (answers (buildMain sample_mac)
            [(0, Bundled None true "ERROR in ./background.ts");
             (0, Bundled None false EmptyString)])
  = Settled (Rejected (Error "ERROR in ./background.ts")).
Proof.
  exact (proj2 (buildMain_is_the_bundle sample_mac None true "ERROR in ./background.ts"
                  [(0, Bundled None false EmptyString)] eq_refl)).
Defined.

(** A task that is settled when it is called has nothing more to do. *)
Lemma solo_settled s0 t h :
  solo (Ret s0) t h -> t = Ret s0 /\ h = [Ended s0; Started].
Proof.
  induction 1 as [|t h r t' Hrun [-> _] Hres]; done.
Qed.

(** X12.  [buildNerdctlStub] starts the compiler exactly for the systems
    "windows" and "linux"; for any other name it is rejected with
    "Unexpected os of" and the name as soon as it is called, and it starts
    nothing. *)
Theorem buildNerdctlStub_checks_os (proc : process) (os : string) :
  (os = "windows" \/ os = "linux" ->
     arrive (buildNerdctlStub proc os) = Began (WChild (stub_build proc os)))
  /\ (os <> "windows" -> os <> "linux" ->
        buildNerdctlStub proc os = Ret (Rejected (Error ("Unexpected os of " +:+ os)))
        /\ forall t h, solo (buildNerdctlStub proc os) t h ->
             h = [Ended (Rejected (Error ("Unexpected os of " +:+ os))); Started]).
Proof.
  split.
  - intros Hos. by rewrite buildNerdctlStub_unfold.
  - intros Hw Hl.
    assert (Heq : buildNerdctlStub proc os
                  = Ret (Rejected (Error ("Unexpected os of " +:+ os)))).
    { unfold buildNerdctlStub. cbn [existsb].
      destruct (String.eqb_spec os "windows"); [done|].
      destruct (String.eqb_spec os "linux"); done. }
    split; [done|]. rewrite Heq. intros t h Hrun. exact (proj2 (solo_settled _ _ _ Hrun)).
Qed.

Lemma buildNerdctlStub_checks_os_witness :
  arrive (buildNerdctlStub sample_serial "linux")
  = Began (WChild (stub_build sample_serial "linux"))
  /\ buildNerdctlStub sample_serial "darwin"
     = Ret (Rejected (Error ("Unexpected os of " +:+ "darwin"))).
Proof.
  destruct (buildNerdctlStub_checks_os sample_serial "linux") as (Hok & _).
  destruct (buildNerdctlStub_checks_os sample_serial "darwin") as (_ & Hbad).
  split; [apply Hok; by right|].
  apply Hbad; discriminate.
Defined.

(** X13.  The compilers are started with the environment of the process
    in which only GOOS is replaced: "linux" for the WSL helper, the system
    asked for for a nerdctl stub; they run in their source directories and
    write to the file named after "-o". *)
Theorem cross_compile_environment (proc : process) :
  (arrive (buildWSLHelper proc) = Began (WChild (wsl_build proc))
   /\ exists e, inv_env (wsl_build proc) = Some e
        /\ e !! "GOOS" = Some "linux"
        /\ forall k, k <> "GOOS" -> e !! k = env proc !! k)
  /\ (forall os,
        exists e, inv_env (stub_build proc os) = Some e
          /\ e !! "GOOS" = Some os
          /\ (forall k, k <> "GOOS" -> e !! k = env proc !! k)
          /\ inv_cwd (stub_build proc os)
             = path_join proc [srcDir proc; "src"; "go"; "nerdctl-stub"]
          /\ arguments (stub_build proc os)
             = ["build"; "-ldflags"; "-s -w"; "-o"; outFile (stub_paths proc os); "."]).
Proof.
  split.
  - split; [reflexivity|]. eexists. split; [reflexivity|]. split.
    + apply lookup_insert_eq.
    + intros k Hk. by apply lookup_insert_ne.
  - intros os. eexists. split; [reflexivity|]. split_and!; [|intros k Hk|done|done].
    + apply lookup_insert_eq.
    + by apply lookup_insert_ne.
Qed.

Lemma cross_compile_environment_witness :
  let proc := {| argv := []; platform := "win32"; arch := "x64";
                 env := {["GOOS" := "windows"; "PATH" := "C:\go\bin"]};
                 cwd := "C:\rd"; srcDir := "C:\rd" |} in
  exists e, inv_env (stub_build proc "linux") = Some e
    /\ e !! "GOOS" = Some "linux" /\ e !! "PATH" = Some "C:\go\bin".
Proof.
  intros proc.
  destruct (cross_compile_environment proc) as (_ & Hstub).
  destruct (Hstub "linux") as (e & He & Hgoos & Hother & _).
  exists e. split_and!; [done|done|].
  rewrite Hother by discriminate. reflexivity.
Defined.

(** X14.  [buildWSLHelper] is settled by the first news of its compiler,
    as the promise of [spawn] is: fulfilled, with no value, when that
    promise is fulfilled, and rejected with the same error when it is
    rejected.  It never stalls. *)
Theorem buildWSLHelper_settles_with_spawn (proc : process) (r : child_run) :
  exists s, resume (buildWSLHelper proc) (ChildGone r) = Some (Ret s)
    /\ ((s = Fulfilled VUndefined /\ is_fulfilled (spawn_promise r) = true)
        \/ (exists e, s = Rejected e /\ spawn_promise r = Settled (Rejected e))).
Proof.
  unfold buildWSLHelper, spawn. cbn [resume]. unfold await_emitter.
  fold (spawn_promise r). pose proof (spawn_promise_settled r) as Hsettled.
  destruct (spawn_promise r) as [|[v|e]]; [done| |].
  - eexists. split; [done|]. by left.
  - eexists. split; [done|]. right. by exists e.
Qed.

Lemma app_inv_head_string (p a b : string) : p +:+ a = p +:+ b -> a = b.
Proof. induction p as [|c p IH]; cbn; [done|]. intros H. apply IH. by simplify_eq. Qed.



(** ** build-utils.mjs: more of wait *)

(** X16.  Without tasks [wait] is fulfilled at once, in serial and in
    parallel mode: no task is ever called and no answer changes the
    result. *)
Theorem wait_without_tasks (proc : process) (schedule : list (nat * response)) :
  let rt := answers (wait proc []) schedule in
  result rt = Settled (Fulfilled VUndefined)
  /\ forall i te, Task i te ∉ history rt.
Proof.
  intros rt. subst rt. destruct (serial proc) eqn:Hserial.
  - rewrite answers_serial by done. unfold result, history. cbn [rt_coord].
    rewrite serial_answers_idle by done. split; [done|].
    intros i te Hin. by apply elem_of_nil in Hin.
  - rewrite answers_parallel by done. unfold result, history. cbn [rt_coord].
    rewrite pool_answers_settled by done. split; [done|].
    intros i te [?|Hin]%elem_of_cons; [done|]. by apply elem_of_nil in Hin.
Qed.

Lemma serial_enter_settled ss : forall i s h,
  s_result (serial_enter i (Ret s) (map Ret ss) h) = verdict (s :: ss)
  /\ s_current (serial_enter i (Ret s) (map Ret ss) h) = None.
Proof.
  induction ss as [|s' ss IH]; intros i s h; destruct s as [v|e]; try done.
  cbn [map serial_enter]. apply IH.
Qed.

Lemma settled_from_ret ss : forall i,
  first_rejected (settled_from i (map Ret ss)) = first_failure ss
  /\ length (settled_from i (map Ret ss)) = length ss.
Proof.
  induction ss as [|[v|e] ss IH]; intros i; cbn; [done| |].
  - destruct (IH (S i)) as [-> ->]. done.
  - destruct (IH (S i)) as [_ ->]. done.
Qed.

(** X17.  When every task is already settled as it is called, both
    disciplines give the same result, at once and for good: the rejection
    of the first rejected task in the order of the list, or fulfilment when
    there is none. *)
Theorem wait_on_settled_tasks (proc : process) (ss : list settle)
    (schedule : list (nat * response)) :
  result (answers (wait proc (map Ret ss)) schedule) = verdict ss.
Proof.
  destruct (serial proc) eqn:Hserial.
  - rewrite answers_serial by done. unfold result. cbn [rt_coord].
    destruct ss as [|s ss]; [by rewrite serial_answers_idle|].
    cbn [map wait_serial].
    destruct (serial_enter_settled ss 0 s [Task 0 Started]) as [Hres Hcur].
    by rewrite serial_answers_idle.
  - rewrite answers_parallel by done. unfold result. cbn [rt_coord].
    rewrite pool_answers_settled.
    2: { intros i t Hi. cbn in Hi. apply list_lookup_fmap_Some in Hi as (s & -> & _).
         by exists s. }
    pose proof (pool_outcome _ _ (wait_parallel_inv (map Ret ss))) as Hstate.
    set (p := wait_parallel (map Ret ss)) in *.
    assert (Hends : endings (p_history p) = settled_from 0 (map Ret ss)).
    { subst p. unfold wait_parallel, pool_of. cbn [p_history].
      by rewrite endings_cons, app_nil_r, endings_launch. }
    destruct (settled_from_ret ss 0) as [Hfirst Hlen].
    rewrite first_rejection_endings, Hends, Hfirst, Hlen, length_map, Nat.sub_diag
      in Hstate.
    unfold verdict. destruct (first_failure ss) as [e|].
    + by rewrite Hstate.
    + change (exists v, outcome (agg p) = Settled (Fulfilled v)) in Hstate.
      by destruct Hstate as (v & ->).
Qed.

Lemma solo_ended t0 t h s : solo t0 t h -> Ended s ∈ h -> t = Ret s.
Proof.
  induction 1 as [|t h r t' Hrun IH Hres]; intros Hin.
  - apply elem_of_cons in Hin as [Heq|Hin].
    + destruct t0; by simplify_eq/=.
    + apply elem_of_cons in Hin as [?|Hin]; [done|]. by apply elem_of_nil in Hin.
  - apply elem_of_cons in Hin as [Heq|Hin].
    + destruct t'; by simplify_eq/=.
    + apply elem_of_cons in Hin as [?|Hin]; [done|].
      rewrite (IH Hin) in Hres. done.
Qed.

(** What the loop leaves behind: a task it waits for is not settled, a
    rejection of [wait] is the recorded rejection of the task called last,
    and a fulfilment of [wait] carries no value. *)
Lemma serial_enter_leaves todo : forall i t h,
  let st := serial_enter i t todo h in
  (forall t', s_current st = Some t' -> forall s, t' <> Ret s)
  /\ (forall e, s_result st = Settled (Rejected e) ->
        Task (s_index st) (Ended (Rejected e)) ∈ s_history st)
  /\ (forall v, s_result st = Settled (Fulfilled v) -> v = VUndefined).
Proof.
  induction todo as [|t'' rest IH]; intros i t h st; subst st;
    destruct t as [[v|e]| | | |]; cbn [serial_enter s_current s_result s_index s_history];
    try (split_and!; [intros ? ?; by simplify_eq|intros ? ?; simplify_eq; left
                     |intros ? ?; by simplify_eq]);
    try (split_and!; [intros ? ?; by simplify_eq|done|intros ? ?; by simplify_eq]).
  apply IH.
Qed.

Lemma serial_deliver_cases st i r :
  serial_deliver st i r = st
  \/ exists i' t' todo h, serial_deliver st i r = serial_enter i' t' todo h.
Proof.
  unfold serial_deliver. destruct (s_current st) as [t|]; [|by left].
  destruct (Nat.eqb i (s_index st)); [|by left].
  destruct (resume t r) as [t'|]; [|by left].
  right. by do 4 eexists.
Qed.

Lemma serial_answers_leaves tasks schedule :
  let st := serial_answers (wait_serial tasks) schedule in
  (forall t', s_current st = Some t' -> forall s, t' <> Ret s)
  /\ (forall e, s_result st = Settled (Rejected e) ->
        Task (s_index st) (Ended (Rejected e)) ∈ s_history st)
  /\ (forall v, s_result st = Settled (Fulfilled v) -> v = VUndefined).
Proof.
  intros st. subst st.
  assert (Hgen : forall schedule st,
    ((forall t', s_current st = Some t' -> forall s, t' <> Ret s)
     /\ (forall e, s_result st = Settled (Rejected e) ->
           Task (s_index st) (Ended (Rejected e)) ∈ s_history st)
     /\ (forall v, s_result st = Settled (Fulfilled v) -> v = VUndefined)) ->
    (forall t', s_current (serial_answers st schedule) = Some t' -> forall s, t' <> Ret s)
    /\ (forall e, s_result (serial_answers st schedule) = Settled (Rejected e) ->
          Task (s_index (serial_answers st schedule)) (Ended (Rejected e))
          ∈ s_history (serial_answers st schedule))
    /\ (forall v, s_result (serial_answers st schedule) = Settled (Fulfilled v) ->
          v = VUndefined)).
  { clear. induction schedule as [|[i r] schedule IH]; intros st Hst; [done|].
    change (serial_answers st ((i, r) :: schedule))
      with (serial_answers (serial_deliver st i r) schedule).
    apply IH.
    destruct (serial_deliver_cases st i r) as [->|(i' & t' & todo & h & ->)];
      [exact Hst|apply serial_enter_leaves]. }
  apply Hgen. destruct tasks as [|t rest]; [|apply serial_enter_leaves].
  cbn. split_and!; [done|done|]. intros v ?. by simplify_eq.
Qed.

(** X18.  In serial mode [wait] is fulfilled as soon as the last task of
    the list is: with the fulfilment of that task in the history, the result
    is fulfilment. *)
Theorem serial_fulfils_after_last (proc : process) (tasks : list task)
    (schedule : list (nat * response)) (v : jsval) :
  serial proc = true ->
  let rt := answers (wait proc tasks) schedule in
  Task (pred (length tasks)) (Ended (Fulfilled v)) ∈ history rt ->
  result rt = Settled (Fulfilled VUndefined).
Proof.
  intros Hserial rt. subst rt.
  rewrite answers_serial by done. unfold history, result. cbn [rt_coord].
  destruct (decide (tasks = [])) as [->|Hne].
  { by rewrite serial_answers_idle. }
  pose proof (serial_answers_inv tasks schedule _ (wait_serial_inv tasks Hne)) as Hinv.
  pose proof (serial_answers_leaves tasks schedule) as (Hwaits & Hrejected & Hvalue).
  set (st := serial_answers (wait_serial tasks) schedule) in *.
  intros Hin.
  assert (Hidx : s_index st = pred (length tasks)).
  { pose proof (i_bound _ _ Hinv _ _ Hin). pose proof (i_range _ _ Hinv). lia. }
  rewrite <- Hidx in Hin.
  destruct (tasks !! s_index st) as [t0|] eqn:Ht0.
  2: { apply lookup_ge_None in Ht0. pose proof (i_range _ _ Hinv). lia. }
  destruct (s_current st) as [tc|] eqn:Hcur.
  - exfalso. destruct (i_cur _ _ Hinv tc Hcur) as (_ & t0' & _ & Hsolo').
    assert (tc = Ret (Fulfilled v)).
    { apply (solo_ended _ _ _ _ Hsolo'). by apply elem_of_of_task. }
    by apply (Hwaits tc eq_refl (Fulfilled v)).
  - destruct (s_result st) as [|[v'|e]] eqn:Hres.
    + by destruct (i_idle _ _ Hinv Hcur).
    + by rewrite (Hvalue v' eq_refl).
    + exfalso. pose proof (Hrejected e eq_refl) as Hrej.
      destruct (i_solo _ _ Hinv _ _ Ht0 (le_n _)) as (t & Hsolo).
      assert (t = Ret (Fulfilled v))
        by (apply (solo_ended _ _ _ _ Hsolo); by apply elem_of_of_task).
      assert (t = Ret (Rejected e))
        by (apply (solo_ended _ _ _ _ Hsolo); by apply elem_of_of_task).
      congruence.
Qed.

Lemma serial_fulfils_after_last_witness :
  let tasks := [copy_task "a"; copy_task "b"] in
  let schedule := [(0, Answer (Fulfilled VUndefined));
                   (1, Answer (Fulfilled VUndefined))] in
  result (answers (wait sample_serial tasks) schedule) = Settled (Fulfilled VUndefined).
Proof.
  intros tasks schedule.
  apply (serial_fulfils_after_last sample_serial tasks schedule VUndefined eq_refl).
  cbn. left.
Defined.

(** ** The listeners, on any sequence of events *)

Lemma spawn_on_exit_settled code signal s :
  spawn_on_exit code signal (Settled s) = Settled s.
Proof. unfold spawn_on_exit. by repeat destruct (_ && _). Qed.

Lemma spawn_on_exit_unfulfilled code signal p :
  is_fulfilled p = false -> is_fulfilled (spawn_on_exit code signal p) = false.
Proof.
  intros Hp. unfold spawn_on_exit.
  repeat destruct (_ && _); try done; by destruct p as [|[]].
Qed.

Lemma spawn_events_from evs : forall st,
  uncaught st = None ->
  let st' := fold_left (emit spawn_listeners) evs st in
  uncaught st' = None
  /\ (forall s, promise st = Settled s -> promise st' = Settled s)
  /\ ((forall code signal, OnClose code signal ∉ evs) ->
      is_fulfilled (promise st) = false -> is_fulfilled (promise st') = false).
Proof.
  induction evs as [|ev evs IH]; intros st Hun st'; subst st'; [done|].
  cbn [fold_left].
  assert (Hstep : uncaught (emit spawn_listeners st ev) = None
          /\ (forall s, promise st = Settled s ->
                promise (emit spawn_listeners st ev) = Settled s)
          /\ ((forall code signal, ev <> OnClose code signal) ->
              is_fulfilled (promise st) = false ->
              is_fulfilled (promise (emit spawn_listeners st ev)) = false)).
  { unfold emit. rewrite Hun. destruct ev as [code signal|err|code signal]; cbn.
    - split_and!; [done| |].
      + intros s ->. apply spawn_on_exit_settled.
      + intros _. apply spawn_on_exit_unfulfilled.
    - split_and!; [done|by intros s ->|]. intros _. by destruct (promise st) as [|[]].
    - split_and!; [done|by intros s ->|]. intros Hne. by destruct (Hne code signal). }
  destruct Hstep as (Hun' & Hkeep & Hclose).
  destruct (IH _ Hun') as (Hun'' & Hkeep' & Hclose').
  split_and!; [done|by intros s Hs; apply Hkeep', Hkeep|].
  intros Hno Hp. apply Hclose'.
  - intros code signal Hin. apply (Hno code signal). by right.
  - apply Hclose; [|done]. intros code signal ->. apply (Hno code signal). left.
Qed.

(** X19.  Whatever events a child emits and in whatever order, the
    promise of [spawn] leaves no ['error'] without a listener, is never
    fulfilled before a ['close'], and, once settled, is not changed by any
    later event. *)
Theorem spawn_promise_on_any_events (evs more : list child_event) :
  uncaught (deliver_events spawn_listeners evs) = None
  /\ ((forall code signal, OnClose code signal ∉ evs) ->
      is_fulfilled (promise (deliver_events spawn_listeners evs)) = false)
  /\ (forall s, promise (deliver_events spawn_listeners evs) = Settled s ->
        promise (deliver_events spawn_listeners (evs ++ more)) = Settled s).
Proof.
  unfold deliver_events.
  destruct (spawn_events_from evs {| promise := Pending; uncaught := None |} eq_refl)
    as (Hun & _ & Hclose).
  split_and!; [done|by intros Hno; apply Hclose|].
  intros s Hs. rewrite fold_left_app.
  by destruct (spawn_events_from more _ Hun) as (_ & Hkeep & _); apply Hkeep.
Qed.

Lemma spawn_promise_on_any_events_witness :
  let err := SystemError "kill" "EPERM" in
  promise (deliver_events spawn_listeners [OnError err; OnExit (Some 0%Z) None])
  = Settled (Rejected err)
  /\ promise (deliver_events spawn_listeners
                ([OnError err; OnExit (Some 0%Z) None] ++ [OnClose (Some 0%Z) None]))
     = Settled (Rejected err).
Proof.
  intros err. split; [reflexivity|].
  destruct (spawn_promise_on_any_events [OnError err; OnExit (Some 0%Z) None]
              [OnClose (Some 0%Z) None]) as (_ & _ & Hkeep).
  by apply Hkeep.
Defined.

Lemma extract_events_from evs : forall st,
  let st' := fold_left (emit extract_listeners) evs st in
  (forall e, uncaught st = Some e -> st' = st)
  /\ (forall err, uncaught st = None -> OnError err ∈ evs ->
        exists e, uncaught st' = Some e)
  /\ (promise st = Pending ->
      (forall code signal, OnExit code signal ∉ evs) -> promise st' = Pending)
  /\ (is_fulfilled (promise st) = false -> is_fulfilled (promise st') = true ->
      exists signal, OnExit (Some 0%Z) signal ∈ evs).
Proof.
  induction evs as [|ev evs IH]; intros st st'; subst st'.
  { split_and!; try done.
    - intros err _ Hin. by apply elem_of_nil in Hin.
    - intros H1 H2. cbn in H2. congruence. }
  cbn [fold_left]. destruct (IH (emit extract_listeners st ev)) as (Hdead & Herr & Hpend & Hful).
  destruct (uncaught st) as [e0|] eqn:Hun.
  { assert (Hsame : emit extract_listeners st ev = st) by (unfold emit; by rewrite Hun).
    rewrite Hsame in *. pose proof (Hdead e0 Hun) as Hs. rewrite Hs.
    split_and!; try done. intros Hf Hf'. congruence. }
  split_and!; [done| | |].
  - intros err _ [<-|Hin]%elem_of_cons.
    + assert (Hnow : uncaught (emit extract_listeners st (OnError err)) = Some err)
        by (unfold emit; by rewrite Hun).
      exists err. by rewrite (proj1 (IH _) err Hnow).
    + destruct (uncaught (emit extract_listeners st ev)) as [e1|] eqn:Hun'.
      * exists e1. by rewrite (Hdead e1 eq_refl).
      * by apply (Herr err).
  - intros Hp Hno. apply Hpend.
    + unfold emit. rewrite Hun.
      destruct ev as [code signal|err|code signal]; cbn; try done.
      exfalso. apply (Hno code signal). left.
    + intros code signal Hin. apply (Hno code signal). by right.
  - intros Hf Hf'.
    destruct (is_fulfilled (promise (emit extract_listeners st ev))) eqn:Hnow.
    + unfold emit in Hnow. rewrite Hun in Hnow.
      destruct ev as [code signal|err|code signal]; cbn in Hnow; try congruence.
      unfold extract_on_exit in Hnow. case_bool_decide as Hc.
      * simplify_eq. exists signal. left.
      * by destruct (promise st) as [|[]].
    + destruct (Hful eq_refl Hf') as (signal & Hin). exists signal. by right.
Qed.

(** X20.  Whatever events tar emits and in whatever order, the promise
    [getLima] waits on listens to ['exit'] only: it is pending as long as no
    ['exit'] has come, it is fulfilled only if an ['exit'] with code 0 has
    come, and any ['error'] among the events is thrown by the emitter, no
    listener having been given for it. *)
Theorem extract_promise_on_any_events (evs : list child_event) :
  ((forall code signal, OnExit code signal ∉ evs) ->
   promise (deliver_events extract_listeners evs) = Pending)
  /\ (is_fulfilled (promise (deliver_events extract_listeners evs)) = true ->
      exists signal, OnExit (Some 0%Z) signal ∈ evs)
  /\ (forall err, OnError err ∈ evs ->
        exists e, uncaught (deliver_events extract_listeners evs) = Some e).
Proof.
  unfold deliver_events.
  destruct (extract_events_from evs {| promise := Pending; uncaught := None |})
    as (_ & Herr & Hpend & Hful).
  split_and!.
  - by apply Hpend.
  - by apply Hful.
  - intros err. by apply Herr.
Qed.

Lemma extract_promise_on_any_events_witness :
  let err := SystemError "spawn /usr/bin/tar" "ENOENT" in
  exists e, uncaught (deliver_events extract_listeners
                        [OnError err; OnClose (Some (-2)%Z) None]) = Some e.
Proof.
  intros err.
  destruct (extract_promise_on_any_events [OnError err; OnClose (Some (-2)%Z) None])
    as (_ & _ & Herr).
  apply (Herr err). left.
Defined.

(** ** wait is pending only while a task is *)

Lemma solo_head t0 t h : solo t0 t h -> exists rest, h = arrive t :: rest.
Proof. destruct 1; by eexists. Qed.

Lemma settled_or_not (l : list task) :
  (forall i t, l !! i = Some t -> exists s, t = Ret s)
  \/ exists i t, l !! i = Some t /\ forall s, t <> Ret s.
Proof.
  induction l as [|t l [IH|(i & t' & Hi & Ht')]].
  - left. intros i t Hi. done.
  - destruct t as [s| | | |].
    1: { left. intros [|i] t Hi; cbn in Hi; [simplify_eq; eauto|by eapply IH]. }
    all: right; eexists 0, _; split; [done|]; intros s; done.
  - right. by exists (S i), t'.
Qed.

(** X21.  [wait] does not hang by itself: in serial and in parallel mode,
    whenever its promise is pending there is a task of the list that has
    been called and is not settled. *)
Theorem wait_pending_has_unsettled_task (proc : process) (tasks : list task)
    (schedule : list (nat * response)) :
  let rt := answers (wait proc tasks) schedule in
  result rt = Pending ->
  exists i t, i < length tasks /\ slot rt i = Some t
              /\ Task i Started ∈ history rt /\ forall s, t <> Ret s.
Proof.
  intros rt. subst rt. destruct (serial proc) eqn:Hserial.
  - rewrite answers_serial by done. unfold result, slot, history. cbn [rt_coord].
    destruct (decide (tasks = [])) as [->|Hne].
    { by rewrite serial_answers_idle. }
    pose proof (serial_answers_inv tasks schedule _ (wait_serial_inv tasks Hne)) as Hinv.
    pose proof (serial_answers_leaves tasks schedule) as (Hwaits & _ & _).
    set (st := serial_answers (wait_serial tasks) schedule) in *.
    intros Hpending.
    destruct (s_current st) as [t|] eqn:Hcur.
    + exists (s_index st), t. rewrite Nat.eqb_refl.
      split_and!; [apply Hinv|done| |by apply Hwaits].
      apply elem_of_starts. rewrite (i_starts _ _ Hinv).
      apply list_elem_of_In, in_seq. lia.
    + by destruct (i_idle _ _ Hinv Hcur).
  - rewrite answers_parallel by done. unfold result, slot, history. cbn [rt_coord].
    pose proof (pool_answers_inv tasks schedule _ (wait_parallel_inv tasks)) as Hinv.
    pose proof (pool_outcome _ _ Hinv) as Hstate.
    set (p := pool_answers (wait_parallel tasks) schedule) in *.
    intros Hpending.
    assert (Hout : outcome (agg p) = Pending) by by destruct (outcome (agg p)) as [|[]].
    assert (Hcalled : forall i, i < length tasks -> Task i Started ∈ p_history p).
    { intros i Hi. destruct (q_history _ _ Hinv) as (after & -> & _).
      apply elem_of_app. right. right. apply launch_started. right. lia. }
    destruct (settled_or_not (slots p)) as [Hall|(i & t & Hi & Ht)].
    + exfalso. rewrite Hout in Hstate.
      destruct (first_rejection (p_history p)); [done|].
      assert (Hlen : length tasks <= length (endings (p_history p))).
      { rewrite <- (length_seq (length tasks) 0), <- (length_fmap fst (endings _)).
        apply NoDup_incl_length; [apply seq_NoDup|].
        intros i Hi. apply in_seq in Hi.
        destruct (lookup_lt_is_Some_2 tasks i ltac:(lia)) as (t0 & Ht0).
        destruct (q_solo _ _ Hinv i t0 Ht0) as (t & Hslot & Hsolo).
        destruct (Hall i t Hslot) as (s & ->).
        destruct (solo_head _ _ _ Hsolo) as (rest & Hhead).
        apply list_elem_of_In, list_elem_of_fmap.
        exists (i, s). split; [done|]. apply elem_of_endings, elem_of_of_task.
        rewrite Hhead. left. }
      destruct (Nat.eqb_spec (length tasks - length (endings (p_history p))) 0);
        [by destruct Hstate|lia].
    + exists i, t. pose proof (lookup_lt_Some _ _ _ Hi) as Hlt.
      rewrite (q_slots _ _ Hinv) in Hlt. split_and!; [done|done|by apply Hcalled|done].
Qed.

Lemma wait_pending_has_unsettled_task_witness :
  let rt := answers (wait sample_parallel [copy_task "a"; copy_task "b"])
              [(0, Answer (Fulfilled VUndefined))] in
  exists i t, i < 2 /\ slot rt i = Some t /\ forall s, t <> Ret s.
Proof.
  intros rt.
  destruct (wait_pending_has_unsettled_task sample_parallel
              [copy_task "a"; copy_task "b"] [(0, Answer (Fulfilled VUndefined))] eq_refl)
    as (i & t & Hi & Hslot & _ & Ht).
  by exists i, t.
Defined.

(** ** buildMain on Windows *)

Lemma append_assoc_string (a b c : string) : (a +:+ b) +:+ c = a +:+ (b +:+ c).
Proof.
  induction a as [|x a IH]; [done|].
  change (String x ((a +:+ b) +:+ c) = String x (a +:+ (b +:+ c))).
  by rewrite IH.
Qed.

(** X22.  On a host whose platform name starts with "win", the call of
    [buildMain] in parallel mode has started the bundler and the three
    compilers before anything is answered, while in serial mode it has
    started the bundler only.  The two stub compilers run in the same
    source directory and write to different files. *)
Theorem buildMain_starts_on_windows (proc : process) :
  String.prefix "win" (platform proc) = true ->
  (serial proc = false ->
     history (buildMain proc)
     = [AwaitAll;
        Task 3 (Began (WChild (stub_build proc "linux"))); Task 3 Started;
        Task 2 (Began (WChild (stub_build proc "windows"))); Task 2 Started;
        Task 1 (Began (WChild (wsl_build proc))); Task 1 Started;
        Task 0 (Began (WBundle (webpack_mode proc))); Task 0 Started])
  /\ (serial proc = true ->
        history (buildMain proc)
        = [Task 0 (Began (WBundle (webpack_mode proc))); Task 0 Started])
  /\ inv_cwd (stub_build proc "windows") = inv_cwd (stub_build proc "linux")
  /\ outFile (stub_paths proc "windows") <> outFile (stub_paths proc "linux")
  /\ destFile (stub_paths proc "windows") <> destFile (stub_paths proc "linux").
Proof.
  intros Hwin. unfold buildMain, buildMain_tasks, wait, history. rewrite Hwin.
  split_and!.
  - intros ->. reflexivity.
  - intros ->. reflexivity.
  - reflexivity.
  - cbn [stub_paths String.eqb Ascii.eqb Bool.eqb outFile].
    unfold path_join, path_sep. cbn [String.concat].
    rewrite !append_assoc_string. intros H. apply app_inv_head_string in H.
    by destruct (String.eqb (platform proc) "win32").
  - cbn [stub_paths String.eqb Ascii.eqb Bool.eqb destFile].
    unfold path_join, path_sep. cbn [String.concat].
    rewrite !append_assoc_string. intros H. apply app_inv_head_string in H.
    by destruct (String.eqb (platform proc) "win32").
Qed.

Lemma buildMain_starts_on_windows_witness :
  history (buildMain sample_serial)
  = [Task 0 (Began (WBundle "production")); Task 0 Started]
  /\ length (history (buildMain sample_parallel)) = 9.
Proof.
  destruct (buildMain_starts_on_windows sample_serial eq_refl) as (_ & Hs & _).
  destruct (buildMain_starts_on_windows sample_parallel eq_refl) as (Hp & _).
  split; [by rewrite Hs|by rewrite Hp].
Defined.

(** ** Sample runs *)

Lemma buildWSLHelper_settles_with_spawn_witness :
  exists s, resume (buildWSLHelper sample_serial) (ChildGone (Exited 2)) = Some (Ret s)
    /\ s = Rejected (Error "Process exited with code 2").
Proof.
  destruct (buildWSLHelper_settles_with_spawn sample_serial (Exited 2))
    as (s & Hres & [[_ Hful]|(e & -> & He)]).
  - discriminate Hful.
  - exists (Rejected e). split; [exact Hres|]. vm_compute in He. by simplify_eq.
Defined.


Lemma wait_without_tasks_witness :
  result (answers (wait sample_serial []) [(0, Answer (Fulfilled VUndefined))])
  = Settled (Fulfilled VUndefined)
  /\ result (wait sample_parallel []) = Settled (Fulfilled VUndefined).
Proof.
  split.
  - exact (proj1 (wait_without_tasks sample_serial [(0, Answer (Fulfilled VUndefined))])).
  - exact (proj1 (wait_without_tasks sample_parallel [])).
Defined.

Lemma wait_on_settled_tasks_witness :
  let ss := [Fulfilled VUndefined; Rejected (Error "first"); Rejected (Error "second")] in
  result (wait sample_serial (map Ret ss)) = Settled (Rejected (Error "first"))
  /\ result (wait sample_parallel (map Ret ss)) = Settled (Rejected (Error "first")).
Proof.
  intros ss. split.
  - exact (wait_on_settled_tasks sample_serial ss []).
  - exact (wait_on_settled_tasks sample_parallel ss []).
Defined.
